(** * train_sae.py: sharded batch loading, autoencoder forward pass,
      gradient projection, decoder renormalisation and evaluation counters.

    Integers are Python integers (unbounded), modelled as [Z]; [//] is
    [Z.div] (both round towards minus infinity).  Tensors of activations are
    lists of rows.  Real-valued tensor arithmetic is modelled over [R]. *)

From Stdlib Require Import ZArith List Lia Bool Reals Lra.
Import ListNotations.

(** ** Python slicing and the errors the script can raise *)

Inductive py_error : Type :=
| AssertionError
| ZeroDivisionError
| FileNotFoundError
| IndexError.

Inductive result (A : Type) : Type :=
| Ok (a : A)
| Raise (e : py_error).
Arguments Ok {A} a.
Arguments Raise {A} e.

Definition bind {A B : Type} (r : result A) (k : A -> result B) : result B :=
  match r with
  | Ok a => k a
  | Raise e => Raise e
  end.

Notation "x <- r ;; k" := (bind r (fun x => k))
  (at level 61, r at next level, right associativity).

Module Py.

(** Bound of a slice [l[i:...]] on a sequence of length [len]: a negative
    bound counts from the end, and the result is clamped to [0..len]. *)
Definition slice_bound (len i : Z) : Z :=
  if (i <? 0)%Z then Z.max 0 (i + len) else Z.min i len.

Definition len {A : Type} (l : list A) : Z := Z.of_nat (length l).

(** [l[lo:hi]] *)
Definition slice {A : Type} (l : list A) (lo hi : Z) : list A :=
  let a := slice_bound (len l) lo in
  let b := slice_bound (len l) hi in
  firstn (Z.to_nat (b - a)) (skipn (Z.to_nat a) l).

(** [l[lo:]] *)
Definition slice_from {A : Type} (l : list A) (lo : Z) : list A :=
  skipn (Z.to_nat (slice_bound (len l) lo)) l.

(** [l[:hi]] *)
Definition slice_to {A : Type} (l : list A) (hi : Z) : list A :=
  firstn (Z.to_nat (slice_bound (len l) hi)) l.

(** [range(k)] *)
Definition range (k : Z) : list Z :=
  map Z.of_nat (seq 0 (Z.to_nat k)).

(** [a // b] *)
Definition floordiv (a b : Z) : result Z :=
  if (b =? 0)%Z then Raise ZeroDivisionError else Ok (a / b)%Z.

(** [l[i]] on a Python list or along one tensor dimension. *)
Definition index {A : Type} (l : list A) (i : Z) : result A :=
  let j := if (i <? 0)%Z then (i + len l)%Z else i in
  if (j <? 0)%Z then Raise IndexError
  else match nth_error l (Z.to_nat j) with
       | Some x => Ok x
       | None => Raise IndexError
       end.

End Py.

(** ** The training loop's batch loading (lines 145-152 and 213-235) *)

Module Stream.
Section Loader.

Variable Example : Type.

(** The directory [sae_data]: file [sae_data_i.pt] is the [i]-th entry. *)
Definition sae_data : Type := list (list Example).

Definition torch_load (dir : sae_data) (i : Z) : result (list Example) :=
  if (i <? 0)%Z then Raise FileNotFoundError
  else match nth_error dir (Z.to_nat i) with
       | Some p => Ok p
       | None => Raise FileNotFoundError
       end.

(** The mutable variables of the loop. *)
Record cursor : Type := mkCursor {
  current_part_index : Z;
  current_part : list Example;
  offset : Z
}.

(** What one iteration of the loading code computes, kept for inspection. *)
Record loaded : Type := mkLoaded {
  at_step : Z;
  batch_start : Z;
  batch_end : Z;
  crossed : bool;
  batch : list Example
}.

Section Step.
Variables (dir : sae_data) (n_parts examples_per_part batch_size : Z).

(** Lines 217-235: one pass through the loading code at [step]. *)
Definition load_batch (c : cursor) (step : Z) : result (cursor * loaded) :=
  let bstart := (step * batch_size
                 - current_part_index c * examples_per_part - offset c)%Z in
  let bend := ((step + 1) * batch_size
               - current_part_index c * examples_per_part - offset c)%Z in
  r <- (if ((examples_per_part <? bend)
            && (current_part_index c <? n_parts - 1))%Z%bool
        then
          let remaining := (examples_per_part - bstart)%Z in
          let b0 := Py.slice_from (current_part c) bstart in
          let idx := (current_part_index c + 1)%Z in
          next <- torch_load dir idx ;;
          let b := b0 ++ Py.slice_to next (batch_size - remaining) in
          Ok (mkCursor idx next (batch_size - remaining), true, b)
        else
          Ok (c, false, Py.slice (current_part c) bstart bend)) ;;
  let '(c', x, b) := r in
  if (Py.len b =? batch_size)%Z
  then Ok (c', mkLoaded step bstart bend x b)
  else Raise AssertionError.

(** The [for step in ...] loop, collecting what each iteration loaded. *)
Fixpoint run_steps (c : cursor) (steps : list Z) : result (list loaded) :=
  match steps with
  | [] => Ok []
  | s :: rest =>
      r <- load_batch c s ;;
      ls <- run_steps (fst r) rest ;;
      Ok (snd r :: ls)
  end.
End Step.

(** Lines 145-152 followed by the loop of line 213. *)
Definition training_batches (dir : sae_data) (batch_size : Z)
  : result (list loaded) :=
  let n_parts := Py.len dir in
  first <- torch_load dir 0 ;;
  let examples_per_part := Py.len first in
  let total_training_examples := (n_parts * examples_per_part)%Z in
  n_steps <- Py.floordiv total_training_examples batch_size ;;
  run_steps dir n_parts examples_per_part batch_size
            (mkCursor 0 first 0) (Py.range n_steps).

(** All examples the training loop consumed, in step order. *)
Definition consumed (ls : list loaded) : list Example :=
  concat (map batch ls).

(** The wording of the specification, for comparison: all partition
    contents, truncated to the largest multiple of [batch_size]. *)
Definition spec_stream (dir : sae_data) (batch_size : Z) : list Example :=
  let total := Py.len (concat dir) in
  firstn (Z.to_nat (total / batch_size * batch_size)) (concat dir).

(** The first example of a loaded batch; in [numbered] partitions it is
    the global index at which the batch starts. *)
Definition first_example (l : loaded) : option Example := hd_error (batch l).

(** What holds of the loop variables when iteration [s] starts, in a
    directory whose partitions all have [E] examples. *)
Definition ready (dir : sae_data) (E B s : Z) (c : cursor) : Prop :=
  (0 <= current_part_index c < Py.len dir /\
   torch_load dir (current_part_index c) = Ok (current_part c) /\
   0 <= offset c <= E /\
   0 <= s * B - current_part_index c * E - offset c <= E)%Z.

End Loader.

Arguments mkCursor {Example}.
Arguments current_part_index {Example}.
Arguments current_part {Example}.
Arguments offset {Example}.
Arguments at_step {Example}.
Arguments batch_start {Example}.
Arguments batch_end {Example}.
Arguments crossed {Example}.
Arguments batch {Example}.
Arguments load_batch {Example}.
Arguments run_steps {Example}.
Arguments training_batches {Example}.
Arguments consumed {Example}.
Arguments torch_load {Example}.
Arguments spec_stream {Example}.
Arguments first_example {Example}.
Arguments ready {Example}.

(** Synthetic partitions whose examples are their global indices. *)
Definition numbered (n_parts per_part : nat) : sae_data Z :=
  map (fun p => map (fun i => Z.of_nat (p * per_part + i)) (seq 0 per_part))
      (seq 0 n_parts).

End Stream.

(** ** Tensor arithmetic used by the autoencoder (torch, over the reals)

    A 2-d tensor is the list of its rows.  Binary element-wise operations
    pair the entries up; torch raises on tensors whose shapes do not agree,
    so the statements below carry the shapes as hypotheses. *)

Module Torch.
Open Scope R_scope.

Definition vec : Type := list R.
Definition mat : Type := list vec.

Fixpoint map2 {A B C : Type} (f : A -> B -> C) (u : list A) (v : list B)
  : list C :=
  match u, v with
  | a :: u', b :: v' => f a b :: map2 f u' v'
  | _, _ => []
  end.

Definition rsum (v : vec) : R := fold_right Rplus 0 v.

(** [torch.sum(M)] *)
Definition tsum (M : mat) : R := rsum (map rsum M).

(** [M.numel()] *)
Definition numel (M : mat) : nat := length (concat M).

Definition ncols (M : mat) : nat :=
  match M with
  | [] => O
  | r :: _ => length r
  end.

(** [torch.sum(M, dim=0)]: one entry per column. *)
Definition sum_dim0 (M : mat) : vec :=
  fold_right (map2 Rplus) (repeat 0 (ncols M)) M.

Definition ewise (f : R -> R -> R) (X Y : mat) : mat := map2 (map2 f) X Y.

(** [M op v] with [v] broadcast along the rows. *)
Definition bcast (f : R -> R -> R) (M : mat) (v : vec) : mat :=
  map (fun r => map2 f r v) M.

Definition dot (u v : vec) : R := rsum (map2 Rmult u v).

Definition relu (x : R) : R := Rmax 0 x.

Definition zeros_like (M : mat) : mat := map (map (fun _ => 0)) M.

(** [torch.zeros(b, n)] *)
Definition zeros (b n : nat) : mat := repeat (repeat 0 n) b.

(** [M[:, j]] *)
Definition col (j : nat) (M : mat) : vec := map (fun r => nth j r 0) M.

(** Every row of [M] has [m] entries. *)
Definition rows_of (m : nat) (M : mat) : Prop :=
  Forall (fun r => length r = m) M.

(** [F.mse_loss(input, target)], reduction ['mean']. *)
Definition mse_loss (input target : mat) : R :=
  tsum (ewise (fun a b => (a - b) * (a - b)) input target)
  / INR (numel input).

(** [F.l1_loss(input, target, reduction='sum')]. *)
Definition l1_loss_sum (input target : mat) : R :=
  tsum (ewise (fun a b => Rabs (a - b)) input target).

(** [nn.Linear(n, m)]: [weight] has [m] rows of length [n]. *)
Record Linear : Type := mkLinear {
  weight : mat;
  bias : vec
}.

Definition linear (L : Linear) (x : vec) : vec :=
  map2 (fun w b => dot w x + b) (weight L) (bias L).

(** [torch.linalg.vector_norm(M, dim=0)] *)
Definition vector_norm_dim0 (M : mat) : vec :=
  map sqrt (sum_dim0 (map (map (fun x => x * x)) M)).

(** The default [eps] of [F.normalize]. *)
Definition normalize_eps : R := / IZR (10 ^ 12).

(** [F.normalize(M, dim=0)]: every column divided by the larger of its
    L2 norm and [eps]. *)
Definition normalize_dim0 (M : mat) : mat :=
  bcast Rdiv M (map (fun n => Rmax n normalize_eps) (vector_norm_dim0 M)).

End Torch.

(** ** The autoencoder (lines 54-85) *)

Module SAE.
Import Torch.
Open Scope R_scope.

Record AutoEncoder : Type := mkAutoEncoder {
  enc : Linear;
  dec : Linear;
  lam : R
}.

(** What [forward] returns, in its order. *)
Record outputs : Type := mkOutputs {
  loss : R;
  f : mat;
  reconst_acts : mat;
  mseloss : R;
  l1loss : R
}.

Definition forward (self : AutoEncoder) (acts : mat) : outputs :=
  let x := bcast Rminus acts (bias (dec self)) in
  let f := map (fun r => map relu (linear (enc self) r)) x in
  let reconst_acts := map (linear (dec self)) f in
  let mseloss := mse_loss reconst_acts acts in
  let l1loss := l1_loss_sum f (zeros_like f) in
  let loss := mseloss + lam self * l1loss in
  mkOutputs loss f reconst_acts mseloss l1loss.

Definition remove_parallel_component (grad weight : mat) : mat :=
  let unit_w := normalize_dim0 weight in
  let proj := bcast (fun u s => s * u) unit_w
                    (sum_dim0 (ewise Rmult grad unit_w)) in
  ewise Rminus grad proj.

(** Lines 201-202: the decoder weight right after construction. *)
Definition init_normalize (self : AutoEncoder) : AutoEncoder :=
  mkAutoEncoder (enc self)
                (mkLinear (normalize_dim0 (weight (dec self)))
                          (bias (dec self)))
                (lam self).

(** Lines 249-252: the end of training step [step]. *)
Definition periodic_normalize (step : Z) (self : AutoEncoder) : AutoEncoder :=
  if (step mod 1000 =? 0)%Z then init_normalize self else self.

(** Line 298 *)
Definition nll_score (full_loss reconst_nll mlp_ablated_loss : R) : R :=
  (full_loss - reconst_nll) / (full_loss - mlp_ablated_loss).

(** *** The wording of the specification, for comparison *)

(** Mean over all [b * n] entries of the squared difference. *)
Definition spec_mse (reconstruction batch : mat) : R :=
  rsum (map2 (fun r a => rsum (map2 (fun x y => (x - y) ^ 2) r a))
             reconstruction batch)
  / (INR (length batch) * INR (ncols batch)).

(** L1 norm of every code vector, added up over the batch. *)
Definition spec_l1 (codes : mat) : R :=
  rsum (map (fun c => rsum (map Rabs c)) codes).

Definition spec_codes (self : AutoEncoder) (batch : mat) : mat :=
  map (fun a =>
         map relu (linear (enc self) (map2 Rminus a (bias (dec self)))))
      batch.

(** Shapes: [n] inputs, [m] features. *)
Definition well_shaped (n m : nat) (self : AutoEncoder) : Prop :=
  length (weight (enc self)) = m /\
  rows_of n (weight (enc self)) /\
  length (bias (enc self)) = m /\
  length (weight (dec self)) = n /\
  rows_of m (weight (dec self)) /\
  length (bias (dec self)) = n.

Definition has_shape (b n : nat) (M : mat) : Prop :=
  length M = b /\ rows_of n M.

(** *** Concrete autoencoders and tensors used as test inputs *)

(** One input, one feature; the only non-zero parameters are the encoder
    bias and the decoder weight. *)
Definition bias_only : AutoEncoder :=
  mkAutoEncoder (mkLinear [[0]] [1]) (mkLinear [[1]] [0]) (3 / 1000).

(** A decoder whose single feature column is zero. *)
Definition dead_column : AutoEncoder :=
  mkAutoEncoder (mkLinear [[1]] [0]) (mkLinear [[0]] [0]) (3 / 1000).

(** A 1 x 1 decoder weight whose column has norm [eps / 2]. *)
Definition tiny_weight : mat := [[normalize_eps / 2]].

End SAE.

(** ** The per-feature activation counters of an evaluation pass
       (lines 162, 173, 263-283 and 301) *)

Module Eval.
Section Counters.

(** An activation vector, a code entry, the autoencoder's codes [f] for one
    activation vector, and the test [!= 0] on a code entry. *)
Variables (Act Code : Type) (sae_f : Act -> list Code)
          (nonzero : Code -> bool).
Variables (gpt_batch_size n_features : Z).

(** Line 113; [iter] is the loop variable the lambda reads. *)
Definition slice_fn {A : Type} (iter : Z) (storage : list A) : list A :=
  Py.slice storage (iter * gpt_batch_size) ((iter + 1) * gpt_batch_size).

Fixpoint mapM {A B : Type} (g : A -> result B) (l : list A)
  : result (list B) :=
  match l with
  | [] => Ok []
  | a :: l' => b <- g a ;; bs <- mapM g l' ;; Ok (b :: bs)
  end.

(** [batch_f[i, sel, :]] *)
Definition take_tokens (batch_f : list (list (list Code))) (i : Z)
           (sel : list Z) : result (list (list Code)) :=
  ctx <- Py.index batch_f i ;; mapM (Py.index ctx) sel.

(** Line 282 *)
Definition selected_feature_acts (batch_f : list (list (list Code)))
           (sel : list Z) : result (list (list (list Code))) :=
  mapM (fun i => take_tokens batch_f i sel) (Py.range gpt_batch_size).

Definition zadd (u v : list Z) : list Z := Torch.map2 Z.add u v.

(** [torch.count_nonzero(t, dim=[0, 1])] on a tensor with [n_features]
    entries along its last dimension. *)
Definition count_nonzero_dim01 (t : list (list (list Code))) : list Z :=
  fold_right
    (fun code acc => zadd (map (fun x => if nonzero x then 1 else 0)%Z code)
                          acc)
    (repeat 0%Z (Z.to_nat n_features)) (concat t).

(** The body of the evaluation loop, lines 265-283, as far as the
    counters go. *)
Definition count_batch (storage : list (list Act))
           (selected_tokens_loc : list (list Z))
           (counts : list Z) (iter : Z) : result (list Z) :=
  let batch_mlp_activations := slice_fn iter storage in
  let batch_f := map (map sae_f) batch_mlp_activations in
  sel <- Py.index selected_tokens_loc iter ;;
  acts <- selected_feature_acts batch_f sel ;;
  Ok (zadd counts (count_nonzero_dim01 acts)).

Fixpoint foldM {A B : Type} (g : B -> A -> result B) (l : list A) (b : B)
  : result B :=
  match l with
  | [] => Ok b
  | a :: l' => b' <- g b a ;; foldM g l' b'
  end.

(** One evaluation pass: line 173, then lines 263-283. *)
Definition feature_activation_counts (eval_contexts : Z)
           (storage : list (list Act))
           (selected_tokens_loc : list (list Z)) : result (list Z) :=
  num_eval_batches <- Py.floordiv eval_contexts gpt_batch_size ;;
  foldM (count_batch storage selected_tokens_loc)
        (Py.range num_eval_batches)
        (repeat 0%Z (Z.to_nat n_features)).

(** Line 301 before the logarithm: the densities of the live features. *)
Definition feature_density (counts : list Z) (eval_tokens : Z) : list R :=
  map (fun c => (IZR c / IZR eval_tokens)%R)
      (filter (fun c => negb (c =? 0)%Z) counts).

(** *** The wording of the specification, for comparison: the counts of
    context [i] are taken at the positions sampled for context [i]. *)
Definition spec_context_counts (ctx : list Act) (sel : list Z)
  : result (list Z) :=
  codes <- mapM (Py.index (map sae_f ctx)) sel ;;
  Ok (count_nonzero_dim01 [codes]).

Definition spec_feature_activation_counts (eval_contexts : Z)
           (storage : list (list Act))
           (selected_tokens_loc : list (list Z)) : result (list Z) :=
  num_eval_batches <- Py.floordiv eval_contexts gpt_batch_size ;;
  foldM (fun counts i =>
           ctx <- Py.index storage i ;;
           sel <- Py.index selected_tokens_loc i ;;
           c <- spec_context_counts ctx sel ;;
           Ok (zadd counts c))
        (Py.range (num_eval_batches * gpt_batch_size))
        (repeat 0%Z (Z.to_nat n_features)).

End Counters.

(** *** A small evaluation set used as a test input: two contexts of two
    tokens, one feature whose code is the activation itself, and one
    sampled position per context (position 0 for context 0, position 1 for
    context 1). *)
Definition toy_codes (a : Z) : list Z := [a].
Definition toy_nonzero (x : Z) : bool := negb (x =? 0)%Z.
Definition toy_storage : list (list Z) := [[1; 0]; [1; 0]]%Z.
Definition toy_selected : list (list Z) := [[0]; [1]]%Z.

End Eval.

(** ** Evaluation text, baseline cache and density report
       (lines 89-93, 170-188 and 301-310) *)

Module Corpus.
Section Text.
Variable Token : Type.

(** What [torch.randint(high, (batch_size,))] can return. *)
Definition drawn_below (high : Z) (ix : list Z) : Prop :=
  Forall (fun i => (0 <= i < high)%Z) ix.

(** Lines 89-93, given the start offsets [ix] drawn at line 90 from
    [torch.randint(len(data) - block_size, (batch_size,))]. *)
Definition get_text_batch (data : list Token) (block_size : Z) (ix : list Z)
  : list (list Token) * list (list Token) :=
  let x := map (fun i => Py.slice data i (i + block_size)) ix in
  let y := map (fun i => Py.slice data (i + 1) (i + 1 + block_size)) ix in
  (x, y).

End Text.
End Corpus.

Module Baseline.
Section Cache.

(** A context, one context's residual stream and MLP activations, and
    [model.forward_with_and_without_mlp(x, y)], which returns the residual
    stream, the MLP activations, the loss and the MLP-ablated loss of a
    sub-batch. *)
Variables (Ctx Res Act : Type).
Variable forward_with_and_without_mlp :
  list Ctx -> list Ctx -> list Res * list Act * R * R.
Variable gpt_batch_size : Z.

Record accumulators : Type := mkAcc {
  acc_mlp_activations : list Act;
  acc_residual_stream : list Res;
  acc_full_loss : R;
  acc_mlp_ablated_loss : R
}.

(** Lines 176-186 *)
Definition cache_batch (X Y : list Ctx) (a : accumulators) (iter : Z)
  : accumulators :=
  let x := Eval.slice_fn gpt_batch_size iter X in
  let y := Eval.slice_fn gpt_batch_size iter Y in
  let '(res_stream, mlp_activations, batch_loss, batch_ablated_loss) :=
    forward_with_and_without_mlp x y in
  mkAcc (acc_mlp_activations a ++ mlp_activations)
        (acc_residual_stream a ++ res_stream)
        (acc_full_loss a + batch_loss)
        (acc_mlp_ablated_loss a + batch_ablated_loss).

Record eval_cache : Type := mkCache {
  mlp_activations_storage : list Act;
  residual_stream_storage : list Res;
  full_loss : R;
  mlp_ablated_loss : R
}.

(** Lines 170-188.  When the loop body never runs the two losses are still
    the Python integers 0, and line 188 divides them by
    [num_eval_batches]. *)
Definition build_eval_cache (eval_contexts : Z) (X Y : list Ctx)
  : result eval_cache :=
  num_eval_batches <- Py.floordiv eval_contexts gpt_batch_size ;;
  let a := fold_left (cache_batch X Y) (Py.range num_eval_batches)
                     (mkAcc [] [] 0 0) in
  if (num_eval_batches =? 0)%Z then Raise ZeroDivisionError
  else Ok (mkCache (acc_mlp_activations a) (acc_residual_stream a)
                   (acc_full_loss a / IZR num_eval_batches)
                   (acc_mlp_ablated_loss a / IZR num_eval_batches)).

End Cache.

(** A stand-in for the language model, used as a test input: it returns its
    input contexts as residual stream and activations, with losses 2 and 3. *)
Definition echo_model (x y : list Z) : list Z * list Z * R * R :=
  (x, x, 2%R, 3%R).

End Baseline.

Module Density.

(** [np.log10] *)
Definition log10 (x : R) : R := (ln x / ln 10)%R.

(** Line 301 *)
Definition log_feature_activation_density (counts : list Z) (eval_tokens : Z)
  : list R :=
  map log10 (Eval.feature_density counts eval_tokens).



(** Line 310 *)
Definition num_alive_neurons (logs : list R) : Z := Py.len logs.

(** The features the report leaves out: those whose counter is zero. *)
Definition dead_features (counts : list Z) : list Z :=
  filter (fun c => (c =? 0)%Z) counts.

End Density.

(** * Properties *)

(** ** Slices *)

Module PyFacts.
Import Py.
Open Scope Z_scope.

Lemma slice_bound_inside (n i : Z) : 0 <= i <= n -> slice_bound n i = i.
Proof.
  intros H. unfold slice_bound.
  destruct (Z.ltb_spec i 0); lia.
Qed.

Lemma len_slice {A : Type} (l : list A) (lo hi : Z) :
  0 <= lo <= hi -> hi <= len l -> len (slice l lo hi) = hi - lo.
Proof.
  intros H1 H2. unfold slice.
  rewrite !slice_bound_inside by lia.
  unfold len in *. rewrite length_firstn, length_skipn. lia.
Qed.

Lemma len_slice_from {A : Type} (l : list A) (lo : Z) :
  0 <= lo <= len l -> len (slice_from l lo) = len l - lo.
Proof.
  intros H. unfold slice_from.
  rewrite slice_bound_inside by lia.
  unfold len in *. rewrite length_skipn. lia.
Qed.

Lemma len_slice_to {A : Type} (l : list A) (hi : Z) :
  0 <= hi <= len l -> len (slice_to l hi) = hi.
Proof.
  intros H. unfold slice_to.
  rewrite slice_bound_inside by lia.
  unfold len in *. rewrite length_firstn. lia.
Qed.

Lemma len_app {A : Type} (l l' : list A) : len (l ++ l') = len l + len l'.
Proof. unfold len. rewrite length_app. lia. Qed.

Lemma length_range (k : Z) : length (range k) = Z.to_nat k.
Proof. unfold range. now rewrite length_map, length_seq. Qed.

End PyFacts.

(** ** The batch loader never produces a short batch *)

Module StreamFacts.
Import Py PyFacts Stream.
Open Scope Z_scope.

Section Invariant.
Variable Example : Type.
Variables (dir : sae_data Example) (E B : Z).
Hypothesis parts_equal : Forall (fun p => len p = E) dir.
Hypothesis batch_pos : 0 < B.
Hypothesis batch_fits : B <= E.

Let n := len dir.

Let ready := ready dir E B.

Lemma torch_load_len (i : Z) (p : list Example) :
  torch_load dir i = Ok p -> len p = E.
Proof.
  unfold torch_load. destruct (i <? 0); [discriminate|].
  destruct (nth_error dir (Z.to_nat i)) eqn:Hn; [|discriminate].
  intros [= <-]. apply nth_error_In in Hn.
  rewrite Forall_forall in parts_equal. now apply parts_equal.
Qed.

Lemma torch_load_some (i : Z) :
  0 <= i < n -> exists p, torch_load dir i = Ok p.
Proof.
  intros H. unfold torch_load.
  destruct (Z.ltb_spec i 0); [lia|].
  destruct (nth_error dir (Z.to_nat i)) eqn:Hn; [eauto|].
  apply nth_error_None in Hn. unfold n, len in H. lia.
Qed.

Lemma load_batch_ready (s : Z) (c : cursor Example) :
  ready s c -> 0 <= s -> (s + 1) * B <= n * E ->
  exists c' l,
    load_batch dir n E B c s = Ok (c', l) /\
    ready (s + 1) c' /\ len (batch l) = B /\ at_step l = s.
Proof.
  intros (Hc & Hload & Ho & Hs) Hs0 Hlast.
  pose proof (torch_load_len _ _ Hload) as Hlen.
  unfold load_batch.
  set (bstart := s * B - current_part_index c * E - offset c) in *.
  set (bend := (s + 1) * B - current_part_index c * E - offset c).
  assert (Hbs : bstart = s * B - current_part_index c * E - offset c)
    by reflexivity.
  assert (Hbe : bend = bstart + B) by (unfold bend, bstart; lia).
  destruct (Z.ltb_spec E bend) as [Hover|Hin];
    destruct (Z.ltb_spec (current_part_index c) (n - 1)) as [Hmore|Hlastp];
    cbn [andb].
  - (* the batch runs into the next partition *)
    destruct (torch_load_some (current_part_index c + 1)) as [nx Hnx];
      [lia|].
    rewrite Hnx. cbn [bind].
    pose proof (torch_load_len _ _ Hnx) as Hnlen.
    rewrite len_app, len_slice_from, len_slice_to by lia.
    replace (len (current_part c) - bstart + (B - (E - bstart)) =? B)
      with true by (symmetry; apply Z.eqb_eq; lia).
    eexists _, _. split; [reflexivity|].
    unfold ready, Stream.ready. cbn [current_part_index current_part offset batch at_step].
    rewrite len_app, len_slice_from, len_slice_to by lia.
    repeat split; try assumption; lia.
  - (* last partition: the end of the batch cannot lie beyond it *)
    exfalso. nia.
  - cbn [bind]. rewrite len_slice by lia.
    replace (bend - bstart =? B) with true
      by (symmetry; apply Z.eqb_eq; lia).
    eexists _, _. split; [reflexivity|].
    unfold ready, Stream.ready. cbn [current_part_index current_part offset batch at_step].
    rewrite len_slice by lia.
    repeat split; try assumption; lia.
  - cbn [bind]. rewrite len_slice by lia.
    replace (bend - bstart =? B) with true
      by (symmetry; apply Z.eqb_eq; lia).
    eexists _, _. split; [reflexivity|].
    unfold ready, Stream.ready. cbn [current_part_index current_part offset batch at_step].
    rewrite len_slice by lia.
    repeat split; try assumption; lia.
Qed.

Lemma run_steps_ready (k : nat) : forall (s : nat) (c : cursor Example),
  ready (Z.of_nat s) c ->
  (Z.of_nat s + Z.of_nat k) * B <= n * E ->
  exists ls,
    run_steps dir n E B c (map Z.of_nat (seq s k)) = Ok ls /\
    length ls = k /\
    Forall (fun l => len (batch l) = B) ls /\
    map at_step ls = map Z.of_nat (seq s k).
Proof.
  induction k as [|k IH]; intros s c Hr Hk.
  - exists []. cbn. auto.
  - cbn [seq map run_steps].
    destruct (load_batch_ready (Z.of_nat s) c Hr) as (c' & l & Hl & Hr' & Hb & Hat);
      [lia|nia|].
    rewrite Hl. cbn [bind fst snd].
    replace (Z.of_nat s + 1) with (Z.of_nat (S s)) in Hr' by lia.
    destruct (IH (S s) c' Hr') as (ls & Hls & Hlen & Hall & Hsteps); [lia|].
    rewrite Hls. cbn [bind].
    exists (l :: ls). repeat split.
    + cbn. now rewrite Hlen.
    + now constructor.
    + cbn. now rewrite Hat, Hsteps.
Qed.

(** After a crossing the next batch starts at the previous value of
    [offset], not behind the examples already taken from the new
    partition. *)
Lemma start_after_crossing (s : Z) (c c' : cursor Example)
      (l : loaded Example) :
  load_batch dir n E B c s = Ok (c', l) -> crossed l = true ->
  (s + 1) * B - current_part_index c' * E - offset c' = offset c.
Proof.
  unfold load_batch.
  destruct (_ && _).
  - destruct (torch_load dir (current_part_index c + 1)) as [nx|e];
      cbn [bind]; [|discriminate].
    destruct (_ =? B); [|discriminate].
    intros [= <- <-] _. cbn. lia.
  - cbn [bind]. destruct (_ =? B); [|discriminate].
    intros [= <- <-]. cbn. discriminate.
Qed.

End Invariant.
End StreamFacts.

(** ** The claims about the batch loader *)

Module StreamClaims.
Import Py PyFacts Stream StreamFacts.
Open Scope Z_scope.

(** C10: when all partitions hold [E] examples and [batch_size <= E], the
    loop never raises the short-batch assertion; with at least one
    partition and a positive batch size it runs all
    [n_parts * E // batch_size] steps, each with a batch of exactly
    [batch_size] examples. *)
Theorem batch_length_assertion_unreachable
  (Example : Type) (dir : sae_data Example) (E B : Z) :
  Forall (fun p => len p = E) dir ->
  B <= E ->
  training_batches dir B <> Raise AssertionError /\
  (dir <> [] -> 0 < B ->
   exists ls,
     training_batches dir B = Ok ls /\
     map at_step ls = range (len dir * E / B) /\
     Forall (fun l => len (batch l) = B) ls).
Proof.
  intros Hall HB.
  assert (Hrun : dir <> [] -> 0 < B ->
            exists ls,
              training_batches dir B = Ok ls /\
              map at_step ls = range (len dir * E / B) /\
              Forall (fun l => len (batch l) = B) ls).
  { intros Hne Hpos. unfold training_batches.
    destruct dir as [|p0 rest]; [congruence|].
    set (dir := p0 :: rest) in *.
    assert (H0 : torch_load dir 0 = Ok p0) by reflexivity.
    rewrite H0. cbn [bind].
    assert (Hp0 : len p0 = E) by (eapply torch_load_len; eauto).
    rewrite Hp0. unfold floordiv.
    destruct (Z.eqb_spec B 0) as [|_]; [lia|]. cbn [bind].
    assert (HE : 0 <= E) by (rewrite <- Hp0; unfold len; lia).
    assert (Hn : 0 < len dir) by (unfold len; cbn; lia).
    set (K := len dir * E / B).
    assert (HK : 0 <= K) by (apply Z.div_pos; nia).
    assert (HKB : K * B <= len dir * E)
      by (rewrite Z.mul_comm; apply Z.mul_div_le; lia).
    destruct (run_steps_ready Example dir E B Hall Hpos HB (Z.to_nat K) 0
                              (mkCursor 0 p0 0))
      as (ls & Hls & _ & Hlen & Hsteps).
    - unfold ready. cbn. repeat split; lia.
    - lia.
    - exists ls. unfold range. auto. }
  split; [|exact Hrun].
  destruct dir as [|p0 rest]; [discriminate|].
  set (dir := p0 :: rest) in *.
  assert (H0 : torch_load dir 0 = Ok p0) by reflexivity.
  destruct (Z.lt_trichotomy B 0) as [Hneg|[Hz|Hpos]].
  - (* a negative batch size gives an empty range *)
    unfold training_batches. rewrite H0.
    cbn [bind]. unfold floordiv.
    destruct (Z.eqb_spec B 0) as [|_]; [lia|]. cbn [bind].
    assert (Hle : len dir * len p0 / B <= 0).
    { rewrite <- (Z.div_opp_opp _ B) by lia.
      apply Z.div_le_upper_bound; [lia|].
      unfold len. nia. }
    unfold range. replace (Z.to_nat _) with O by lia. cbn. discriminate.
  - subst B. unfold training_batches. rewrite H0.
    cbn. discriminate.
  - destruct Hrun as (ls & Hls & _); [discriminate|assumption|].
    rewrite Hls. discriminate.
Qed.

Lemma batch_length_assertion_unreachable_witness :
  training_batches (numbered 2 3) 2 <> Raise AssertionError /\
  (numbered 2 3 <> [] -> 0 < 2 ->
   exists ls,
     training_batches (numbered 2 3) 2 = Ok ls /\
     map at_step ls = range (len (numbered 2 3) * 3 / 2) /\
     Forall (fun l => len (batch l) = 2) ls).
Proof.
  apply (batch_length_assertion_unreachable Z (numbered 2 3) 3 2).
  - repeat constructor.
  - lia.
Defined.

(** C1 (the code departs from it): over two partitions of three examples
    with [batch_size = 2], the loop consumes example 3 twice and never
    reaches example 5, so what it consumed is not the truncated
    concatenation of the partitions. *)
Theorem consumed_repeats_after_crossing :
  exists ls,
    training_batches (numbered 2 3) 2 = Ok ls /\
    consumed ls = [0; 1; 2; 3; 3; 4] /\
    spec_stream (numbered 2 3) 2 = [0; 1; 2; 3; 4; 5] /\
    consumed ls <> spec_stream (numbered 2 3) 2.
Proof.
  eexists. split; [vm_compute; reflexivity|].
  repeat split; try (vm_compute; reflexivity).
  vm_compute. discriminate.
Qed.

(** C7 (the code departs from it): with two partitions of 100 examples and
    [batch_size = 64] the loop runs steps 0, 1, 2 and crosses the boundary
    at step 1 only, but the batch of step 2 starts at index 0 of
    partition 1, which is global example 100 and not 128. *)
Theorem third_batch_restarts_partition :
  exists ls,
    training_batches (numbered 2 100) 64 = Ok ls /\
    map at_step ls = [0; 1; 2] /\
    map crossed ls = [false; true; false] /\
    map batch_start ls = [0; 64; 0] /\
    map first_example ls = [Some 0; Some 64; Some 100] /\
    nth_error (spec_stream (numbered 2 100) 64) (2 * 64) = Some 128.
Proof.
  eexists. split; [vm_compute; reflexivity|].
  repeat split; vm_compute; reflexivity.
Qed.

End StreamClaims.

(** ** Sums, columns and norms *)

Module TorchFacts.
Import Torch.
Open Scope R_scope.

Lemma length_map2 {A B C : Type} (g : A -> B -> C) (u : list A) :
  forall v, length (map2 g u v) = Nat.min (length u) (length v).
Proof.
  induction u as [|a u IH]; intros [|b v]; cbn; auto.
Qed.

Lemma nth_map2 {A B C : Type} (g : A -> B -> C) (da : A) (db : B) (dc : C)
      (u : list A) :
  forall (v : list B) (j : nat),
    (j < length u)%nat -> (j < length v)%nat ->
    nth j (map2 g u v) dc = g (nth j u da) (nth j v db).
Proof.
  induction u as [|a u IH]; intros [|b v] [|j] Hu Hv; cbn in *;
    try lia; auto.
  apply IH; lia.
Qed.

Lemma map2_map_r {A B B' C : Type} (g : A -> B' -> C) (h : B -> B')
      (u : list A) :
  forall v, map2 g u (map h v) = map2 (fun a b => g a (h b)) u v.
Proof.
  induction u as [|a u IH]; intros [|b v]; cbn; auto. now rewrite IH.
Qed.

Lemma map2_diag {A C : Type} (g : A -> A -> C) (u : list A) :
  map2 g u u = map (fun a => g a a) u.
Proof. induction u as [|a u IH]; cbn; auto. now rewrite IH. Qed.

Lemma map_map2 {A B C D : Type} (h : C -> D) (g : A -> B -> C)
      (u : list A) :
  forall v, map h (map2 g u v) = map2 (fun a b => h (g a b)) u v.
Proof.
  induction u as [|a u IH]; intros [|b v]; cbn; auto. now rewrite IH.
Qed.

Lemma map2_ext {A B C : Type} (g h : A -> B -> C) :
  (forall a b, g a b = h a b) -> forall u v, map2 g u v = map2 h u v.
Proof.
  intros E u. induction u as [|a u IH]; intros [|b v]; cbn; auto.
  now rewrite E, IH.
Qed.

(** *** [rsum] *)

Lemma rsum_cons (a : R) (l : vec) : rsum (a :: l) = a + rsum l.
Proof. reflexivity. Qed.

Lemma rsum_scal (c : R) (g : R -> R) (l : vec) :
  rsum (map (fun x => g x * c) l) = rsum (map g l) * c.
Proof.
  induction l as [|a l IH]; cbn [map]; [cbn; ring|].
  rewrite !rsum_cons, IH. ring.
Qed.

Lemma rsum_map2_minus_scal (s : R) (g : vec) :
  forall u,
    length g = length u ->
    rsum (map2 (fun a b => (a - s * b) * b) g u) =
    rsum (map2 Rmult g u) - s * rsum (map (fun b => b * b) u).
Proof.
  induction g as [|a g IH]; intros [|b u] Hlen; cbn in Hlen; try lia.
  - cbn. ring.
  - cbn [map2 map]. rewrite !rsum_cons, IH by lia. ring.
Qed.

Lemma rsum_nonneg (l : vec) : Forall (fun x => 0 <= x) l -> 0 <= rsum l.
Proof.
  induction 1 as [|a l Ha _ IH]; [cbn; lra|]. rewrite rsum_cons. lra.
Qed.

Lemma rsum_zero (l : vec) :
  Forall (fun x => 0 <= x) l -> rsum l = 0 -> Forall (fun x => x = 0) l.
Proof.
  induction 1 as [|a l Ha Hl IH]; [constructor|].
  rewrite rsum_cons. intros Hs.
  pose proof (rsum_nonneg l Hl) as Hn.
  constructor; [lra|]. apply IH. lra.
Qed.

Lemma rsum_squares_nonneg (l : vec) : 0 <= rsum (map (fun x => x * x) l).
Proof.
  apply rsum_nonneg. apply Forall_forall. intros y Hy.
  apply in_map_iff in Hy as (x & <- & _). nra.
Qed.

Lemma rsum_repeat (a : R) (k : nat) : rsum (repeat a k) = INR k * a.
Proof.
  induction k as [|k IH]; [cbn; ring|].
  cbn [repeat]. rewrite rsum_cons, IH, S_INR. ring.
Qed.

(** *** Columns *)

Lemma length_fold_rows (m : nat) (M : mat) :
  rows_of m M ->
  length (fold_right (map2 Rplus) (repeat 0 m) M) = m.
Proof.
  induction 1 as [|r M Hr _ IH]; cbn [fold_right].
  - apply repeat_length.
  - rewrite length_map2, Hr, IH. lia.
Qed.

Lemma nth_fold_rows (m j : nat) (M : mat) :
  rows_of m M -> (j < m)%nat ->
  nth j (fold_right (map2 Rplus) (repeat 0 m) M) 0 = rsum (col j M).
Proof.
  intros HM Hj. induction HM as [|r M Hr HM IH]; cbn [fold_right col map].
  - cbn. now rewrite nth_repeat.
  - rewrite (nth_map2 Rplus 0 0 0), IH, rsum_cons.
    + reflexivity.
    + lia.
    + rewrite length_fold_rows; auto.
Qed.

Lemma nth_sum_dim0 (m j : nat) (M : mat) :
  rows_of m M -> (j < m)%nat -> nth j (sum_dim0 M) 0 = rsum (col j M).
Proof.
  intros HM Hj. unfold sum_dim0. destruct M as [|r M'] eqn:E.
  - cbn. now destruct j.
  - rewrite <- E in *. replace (ncols M) with m.
    + now apply nth_fold_rows.
    + subst M. inversion HM. cbn. auto.
Qed.

Lemma length_sum_dim0 (m : nat) (M : mat) :
  rows_of m M -> M <> [] -> length (sum_dim0 M) = m.
Proof.
  intros HM Hne. unfold sum_dim0. destruct M as [|r M'] eqn:E; [congruence|].
  rewrite <- E in *. replace (ncols M) with m.
  - now apply length_fold_rows.
  - subst M. inversion HM. cbn. auto.
Qed.

Lemma col_ewise (g : R -> R -> R) (m j : nat) (X : mat) :
  forall Y, rows_of m X -> rows_of m Y -> (j < m)%nat ->
    col j (ewise g X Y) = map2 g (col j X) (col j Y).
Proof.
  unfold ewise, col.
  induction X as [|r X IH]; intros [|r' Y] HX HY Hj; cbn [map2 map]; auto.
  inversion HX; inversion HY; subst.
  rewrite (nth_map2 g 0 0 0) by lia. f_equal. now apply IH.
Qed.

Lemma col_bcast (g : R -> R -> R) (m j : nat) (M : mat) (v : vec) :
  rows_of m M -> length v = m -> (j < m)%nat ->
  col j (bcast g M v) = map (fun x => g x (nth j v 0)) (col j M).
Proof.
  intros HM Hv Hj. unfold bcast, col. rewrite !map_map.
  apply map_ext_in. intros r Hr.
  unfold rows_of in HM. rewrite Forall_forall in HM. specialize (HM r Hr).
  apply (nth_map2 g 0 0 0); lia.
Qed.

Lemma col_squares (j : nat) (M : mat) :
  col j (map (map (fun x => x * x)) M) = map (fun x => x * x) (col j M).
Proof.
  unfold col. rewrite !map_map. apply map_ext. intros r.
  rewrite <- (map_nth (fun x => x * x) r 0 j). f_equal. ring.
Qed.

Lemma rows_of_map_map (g : R -> R) (m : nat) (M : mat) :
  rows_of m M -> rows_of m (map (map g) M).
Proof.
  unfold rows_of. rewrite Forall_map. apply Forall_impl.
  intros r Hr. now rewrite length_map.
Qed.

Lemma rows_of_bcast (g : R -> R -> R) (m : nat) (M : mat) (v : vec) :
  rows_of m M -> length v = m -> rows_of m (bcast g M v).
Proof.
  intros HM Hv. unfold rows_of, bcast. rewrite Forall_map.
  revert HM. apply Forall_impl. intros r Hr. rewrite length_map2. lia.
Qed.

Lemma rows_of_ewise (g : R -> R -> R) (m : nat) (X : mat) :
  forall Y, rows_of m X -> rows_of m Y -> rows_of m (ewise g X Y).
Proof.
  unfold ewise.
  induction X as [|r X IH]; intros [|r' Y] HX HY; cbn [map2];
    try constructor.
  - inversion HX; inversion HY; subst. rewrite length_map2. lia.
  - inversion HX; inversion HY; subst. now apply IH.
Qed.

(** *** Norms *)

Lemma normalize_eps_pos : 0 < normalize_eps.
Proof.
  unfold normalize_eps. apply Rinv_0_lt_compat. apply IZR_lt. reflexivity.
Qed.

Lemma length_vector_norm_dim0 (m : nat) (M : mat) :
  rows_of m M -> M <> [] -> length (vector_norm_dim0 M) = m.
Proof.
  intros HM Hne. unfold vector_norm_dim0. rewrite length_map.
  apply length_sum_dim0.
  - now apply rows_of_map_map.
  - destruct M; [congruence|discriminate].
Qed.

Lemma nth_vector_norm_dim0 (m j : nat) (M : mat) :
  rows_of m M -> (j < m)%nat ->
  nth j (vector_norm_dim0 M) 0 =
  sqrt (rsum (map (fun x => x * x) (col j M))).
Proof.
  intros HM Hj. unfold vector_norm_dim0.
  rewrite <- sqrt_0 at 1.
  rewrite (map_nth sqrt (sum_dim0 (map (map (fun x => x * x)) M)) 0 j).
  rewrite (nth_sum_dim0 m) by (auto using rows_of_map_map).
  now rewrite col_squares.
Qed.

(** Column [j] of the normalised matrix is column [j] divided by the
    clamped norm. *)
Lemma col_normalize_dim0 (m j : nat) (M : mat) :
  rows_of m M -> (j < m)%nat ->
  col j (normalize_dim0 M) =
  map (fun x => x / Rmax (nth j (vector_norm_dim0 M) 0) normalize_eps)
      (col j M).
Proof.
  intros HM Hj. destruct M as [|r M'] eqn:E; [reflexivity|].
  rewrite <- E in *. assert (Hne : M <> []) by (subst; discriminate).
  unfold normalize_dim0.
  rewrite (col_bcast Rdiv m)
    by (auto; rewrite length_map; now apply length_vector_norm_dim0).
  apply map_ext. intros x. f_equal.
  set (c := fun n => Rmax n normalize_eps).
  change (Rmax (nth j (vector_norm_dim0 M) 0) normalize_eps)
    with (c (nth j (vector_norm_dim0 M) 0)).
  rewrite <- (map_nth c (vector_norm_dim0 M) 0 j). apply nth_indep.
  rewrite length_map, (length_vector_norm_dim0 m); auto.
Qed.

Lemma rows_of_normalize_dim0 (m : nat) (M : mat) :
  rows_of m M -> rows_of m (normalize_dim0 M).
Proof.
  intros HM. destruct M as [|r M'] eqn:E; [constructor|].
  rewrite <- E in *. assert (Hne : M <> []) by (subst; discriminate).
  apply rows_of_bcast; auto.
  rewrite length_map. now apply length_vector_norm_dim0.
Qed.

(** A column whose norm reaches [eps] has unit norm once divided by it. *)
Lemma unit_after_division (w : vec) :
  let d := sqrt (rsum (map (fun x => x * x) w)) in
  normalize_eps <= d ->
  rsum (map (fun x => x * x) (map (fun x => x / Rmax d normalize_eps) w))
  = 1.
Proof.
  intros d Hd. pose proof normalize_eps_pos as He.
  rewrite Rmax_left by lra.
  pose proof (rsum_squares_nonneg w) as HS.
  assert (Hdd : d * d = rsum (map (fun x => x * x) w))
    by (apply sqrt_sqrt; exact HS).
  rewrite map_map.
  rewrite (map_ext _ (fun x => (x * x) * / (d * d)))
    by (intros x; field; lra).
  rewrite (rsum_scal (/ (d * d)) (fun x => x * x)).
  rewrite <- Hdd. field. nra.
Qed.

End TorchFacts.

(** ** The gradient projection and the renormalisation of the decoder *)

Module ProjectionFacts.
Import Torch TorchFacts SAE.
Open Scope R_scope.

Lemma map2_projected (s : R) (g : vec) :
  forall u,
    map2 Rmult (map2 Rminus g (map (fun x => s * x) u)) u =
    map2 (fun a b => (a - s * b) * b) g u.
Proof.
  induction g as [|a g IH]; intros [|b u]; cbn [map map2]; auto.
  now rewrite IH.
Qed.

(** Column [j] of the projected gradient against column [j] of the
    normalised weight, whatever the norm of the weight column. *)
Lemma projected_column_dot (m j : nat) (grad weight : mat) :
  rows_of m grad -> rows_of m weight -> length grad = length weight ->
  (j < m)%nat ->
  let u := col j (normalize_dim0 weight) in
  let s := rsum (map2 Rmult (col j grad) u) in
  nth j (sum_dim0 (ewise Rmult (remove_parallel_component grad weight)
                               (normalize_dim0 weight))) 0
  = s - s * rsum (map (fun x => x * x) u).
Proof.
  intros Hg Hw Hlen Hj.
  pose proof (rows_of_normalize_dim0 m weight Hw) as HU.
  destruct grad as [|g0 grad'] eqn:Eg.
  { destruct weight; [|discriminate]. cbn. destruct j; ring. }
  rewrite <- Eg in *. intros u s.
  assert (Hne : ewise Rmult grad (normalize_dim0 weight) <> []).
  { subst grad. destruct weight as [|w0 weight']; [discriminate|].
    discriminate. }
  assert (Hsv : length (sum_dim0 (ewise Rmult grad (normalize_dim0 weight)))
                = m)
    by (apply length_sum_dim0; auto using rows_of_ewise).
  assert (Hproj :
    rows_of m (bcast (fun u s => s * u) (normalize_dim0 weight)
                 (sum_dim0 (ewise Rmult grad (normalize_dim0 weight)))))
    by (apply rows_of_bcast; auto).
  unfold remove_parallel_component.
  rewrite (nth_sum_dim0 m) by (auto using rows_of_ewise).
  rewrite (col_ewise Rmult m) by (auto using rows_of_ewise).
  rewrite (col_ewise Rminus m) by auto.
  rewrite (col_bcast (fun u s => s * u) m) by auto.
  rewrite (nth_sum_dim0 m) by (auto using rows_of_ewise).
  rewrite (col_ewise Rmult m) by auto.
  fold u. fold s.
  rewrite map2_projected, rsum_map2_minus_scal; [reflexivity|].
  unfold u. unfold normalize_dim0, bcast, col.
  rewrite !length_map. exact Hlen.
Qed.

Lemma length_ewise (g : R -> R -> R) (X Y : mat) :
  length (ewise g X Y) = Nat.min (length X) (length Y).
Proof. unfold ewise. apply length_map2. Qed.

Lemma length_normalize_dim0 (W : mat) :
  length (normalize_dim0 W) = length W.
Proof. unfold normalize_dim0, bcast. apply length_map. Qed.

Lemma rows_of_remove_parallel (m : nat) (grad weight : mat) :
  rows_of m grad -> rows_of m weight -> grad <> [] -> weight <> [] ->
  rows_of m (remove_parallel_component grad weight).
Proof.
  intros Hg Hw Hgn Hwn. unfold remove_parallel_component.
  pose proof (rows_of_normalize_dim0 m weight Hw) as HU.
  apply rows_of_ewise; [exact Hg|].
  apply rows_of_bcast; [exact HU|].
  apply length_sum_dim0; [now apply rows_of_ewise|].
  destruct grad; [congruence|]. destruct weight; [congruence|]. discriminate.
Qed.

(** Column [j] of the projected gradient: the gradient column minus [s]
    times the normalised weight column, [s] being their product. *)
Lemma col_remove_parallel (m j : nat) (grad weight : mat) :
  rows_of m grad -> rows_of m weight -> grad <> [] -> weight <> [] ->
  (j < m)%nat ->
  let u := col j (normalize_dim0 weight) in
  let s := rsum (map2 Rmult (col j grad) u) in
  col j (remove_parallel_component grad weight)
  = map2 (fun a b => a - s * b) (col j grad) u.
Proof.
  intros Hg Hw Hgn Hwn Hj u s.
  pose proof (rows_of_normalize_dim0 m weight Hw) as HU.
  assert (Hne : ewise Rmult grad (normalize_dim0 weight) <> []).
  { destruct grad; [congruence|]. destruct weight; [congruence|].
    discriminate. }
  assert (Hsv : length (sum_dim0 (ewise Rmult grad (normalize_dim0 weight)))
                = m)
    by (apply length_sum_dim0; auto using rows_of_ewise).
  unfold remove_parallel_component.
  rewrite (col_ewise Rminus m)
    by (auto; apply rows_of_bcast; auto).
  rewrite (col_bcast (fun u s => s * u) m) by auto.
  rewrite (nth_sum_dim0 m) by (auto using rows_of_ewise).
  rewrite (col_ewise Rmult m) by auto.
  fold u. fold s. now rewrite map2_map_r.
Qed.

Lemma map2_times_projected (s : R) (g : vec) :
  forall u,
    map2 Rmult (map2 (fun a b => a - s * b) g u) u =
    map2 (fun a b => (a - s * b) * b) g u.
Proof.
  induction g as [|a g IH]; intros [|b u]; cbn [map2]; auto.
  now rewrite IH.
Qed.

(** C5, amended: for a gradient and a weight of the same shape, in every
    column [j] whose weight column has L2 norm at least the [eps] of
    [F.normalize], the projection removes exactly the parallel component:
    the normalised weight column is the weight column divided by its norm,
    a unit vector [u]; the output column is the gradient column [g] minus
    [(g . u) u]; and the output column dotted with [u] is zero. *)
Theorem projection_removes_parallel_component
  (m j : nat) (grad weight : mat) :
  rows_of m grad -> rows_of m weight -> length grad = length weight ->
  (j < m)%nat ->
  normalize_eps <= nth j (vector_norm_dim0 weight) 0 ->
  let g := col j grad in
  let unit_w :=
    map (fun x => x / nth j (vector_norm_dim0 weight) 0) (col j weight) in
  let out := remove_parallel_component grad weight in
  dot unit_w unit_w = 1 /\
  col j (normalize_dim0 weight) = unit_w /\
  col j out = map2 (fun a b => a - dot g unit_w * b) g unit_w /\
  dot (col j out) unit_w = 0 /\
  nth j (sum_dim0 (ewise Rmult out (normalize_dim0 weight))) 0 = 0.
Proof.
  intros Hg Hw Hlen Hj Hnorm g unit_w out.
  pose proof normalize_eps_pos as He.
  assert (HU : col j (normalize_dim0 weight) = unit_w).
  { rewrite (col_normalize_dim0 m) by assumption. unfold unit_w.
    now rewrite Rmax_left by exact Hnorm. }
  assert (H1 : dot unit_w unit_w = 1).
  { unfold dot. rewrite map2_diag. unfold unit_w.
    pose proof (unit_after_division (col j weight)) as Hunit.
    cbv zeta in Hunit.
    rewrite (nth_vector_norm_dim0 m) in * by assumption.
    rewrite Rmax_left in Hunit by exact Hnorm. now apply Hunit. }
  assert (Hcol : col j out
                 = map2 (fun a b => a - dot g unit_w * b) g unit_w).
  { unfold out, g. destruct grad as [|g0 grad'] eqn:Eg.
    - destruct weight; [|discriminate]. reflexivity.
    - rewrite <- Eg in *.
      assert (Hgn : grad <> []) by (subst grad; discriminate).
      assert (Hwn : weight <> [])
        by (intros ->; subst grad; discriminate).
      rewrite (col_remove_parallel m) by assumption.
      rewrite HU. reflexivity. }
  assert (Hdot : dot (col j out) unit_w = 0).
  { rewrite Hcol. unfold dot at 1.
    rewrite map2_times_projected, rsum_map2_minus_scal.
    - unfold dot in H1. rewrite map2_diag in H1. rewrite H1.
      fold (dot g unit_w). ring.
    - unfold g, unit_w, col. now rewrite !length_map. }
  repeat split; try assumption.
  unfold out. rewrite (projected_column_dot m) by assumption.
  rewrite HU. unfold dot in H1. rewrite map2_diag in H1. rewrite H1. ring.
Qed.

Lemma tiny_weight_norm :
  nth 0 (vector_norm_dim0 tiny_weight) 0 = normalize_eps / 2.
Proof.
  pose proof normalize_eps_pos as He.
  rewrite (nth_vector_norm_dim0 1) by (repeat constructor).
  cbn. rewrite Rplus_0_r. apply sqrt_square. lra.
Qed.

Lemma three_four_norm :
  nth 0 (vector_norm_dim0 [[3]; [4]]) 0 = 5.
Proof.
  rewrite (nth_vector_norm_dim0 1) by (repeat constructor).
  cbn. replace (3 * 3 + (4 * 4 + 0)) with (5 * 5) by ring.
  apply sqrt_square. lra.
Qed.

Lemma projection_removes_parallel_component_witness :
  (rows_of 1 [[1]; [0]] /\ rows_of 1 [[3]; [4]] /\
   normalize_eps <= nth 0 (vector_norm_dim0 [[3]; [4]]) 0) /\
  (let g := col 0 [[1]; [0]] in
   let unit_w :=
     map (fun x => x / nth 0 (vector_norm_dim0 [[3]; [4]]) 0)
         (col 0 [[3]; [4]]) in
   let out := remove_parallel_component [[1]; [0]] [[3]; [4]] in
   dot unit_w unit_w = 1 /\
   col 0 (normalize_dim0 [[3]; [4]]) = unit_w /\
   col 0 out = map2 (fun a b => a - dot g unit_w * b) g unit_w /\
   dot (col 0 out) unit_w = 0 /\
   nth 0 (sum_dim0 (ewise Rmult out (normalize_dim0 [[3]; [4]]))) 0 = 0) /\
  col 0 (remove_parallel_component [[1]; [0]] [[3]; [4]])
  = [16 / 25; - (12 / 25)].
Proof.
  assert (Hg : rows_of 1 [[1]; [0]]) by (repeat constructor).
  assert (Hw : rows_of 1 [[3]; [4]]) by (repeat constructor).
  assert (Hn : normalize_eps <= nth 0 (vector_norm_dim0 [[3]; [4]]) 0).
  { rewrite three_four_norm. pose proof normalize_eps_pos.
    assert (normalize_eps <= / 1).
    { unfold normalize_eps. apply Rinv_le_contravar; [lra|].
      apply IZR_le. discriminate. }
    lra. }
  pose proof (projection_removes_parallel_component 1 0 [[1]; [0]]
                [[3]; [4]] Hg Hw eq_refl Nat.lt_0_1 Hn) as H.
  split; [auto|]. split; [exact H|].
  cbv zeta in H. destruct H as (_ & _ & Hcol & _).
  rewrite Hcol, three_four_norm. unfold dot. cbn.
  f_equal; [field|]. f_equal. field.
Defined.

(** C5 as stated fails: the single column of [tiny_weight] is non-zero,
    yet the projection turns the gradient [[1]] into [[3/4]], which keeps
    the component 3/8 along the column of [F.normalize(weight)] (and 3/4
    along the column scaled to unit length). *)
Lemma projection_keeps_parallel_part_of_tiny_column :
  nth 0 (vector_norm_dim0 tiny_weight) 0 <> 0 /\
  remove_parallel_component [[1]] tiny_weight = [[3 / 4]] /\
  nth 0 (sum_dim0 (ewise Rmult (remove_parallel_component [[1]] tiny_weight)
                               (normalize_dim0 tiny_weight))) 0 <> 0.
Proof.
  pose proof normalize_eps_pos as He.
  split; [rewrite tiny_weight_norm; lra|]. split.
  - assert (Hs : sqrt (normalize_eps / 2 * (normalize_eps / 2) + 0)
                 = normalize_eps / 2)
      by (rewrite Rplus_0_r; apply sqrt_square; lra).
    unfold remove_parallel_component, normalize_dim0, vector_norm_dim0,
      sum_dim0, bcast, ewise, tiny_weight.
    cbn [map map2 fold_right repeat ncols length].
    rewrite Hs, Rmax_right by lra.
    do 2 f_equal. field. lra.
  - rewrite (projected_column_dot 1) by (repeat constructor).
    rewrite (col_normalize_dim0 1) by (repeat constructor).
    rewrite tiny_weight_norm.
    rewrite Rmax_right by lra.
    cbn. intros H. field_simplify in H; lra.
Qed.

End ProjectionFacts.

Module NormalizeFacts.
Import Torch TorchFacts SAE.
Open Scope R_scope.

Lemma normalized_column_norm (m j : nat) (W : mat) :
  rows_of m W -> (j < m)%nat ->
  normalize_eps <= nth j (vector_norm_dim0 W) 0 ->
  nth j (vector_norm_dim0 (normalize_dim0 W)) 0 = 1.
Proof.
  intros HW Hj Hnorm.
  rewrite (nth_vector_norm_dim0 m) by (auto using rows_of_normalize_dim0).
  rewrite (col_normalize_dim0 m) by assumption.
  rewrite (nth_vector_norm_dim0 m) in * by assumption.
  rewrite unit_after_division by assumption. apply sqrt_1.
Qed.

(** C6, amended: right after the initial normalisation, and right after
    the normalisation at the end of every step with [step % 1000 == 0],
    every decoder column whose L2 norm was at least the [eps] of
    [F.normalize] before the normalisation has L2 norm 1. *)
Theorem decoder_columns_unit_after_normalize
  (m j : nat) (step : Z) (self : AutoEncoder) :
  rows_of m (weight (dec self)) -> (j < m)%nat ->
  normalize_eps <= nth j (vector_norm_dim0 (weight (dec self))) 0 ->
  nth j (vector_norm_dim0 (weight (dec (init_normalize self)))) 0 = 1 /\
  ((step mod 1000 = 0)%Z ->
   nth j (vector_norm_dim0 (weight (dec (periodic_normalize step self)))) 0
   = 1).
Proof.
  intros HW Hj Hnorm.
  assert (H : nth j (vector_norm_dim0 (weight (dec (init_normalize self)))) 0
              = 1)
    by (cbn; now apply (normalized_column_norm m)).
  split; [exact H|].
  intros Hstep. unfold periodic_normalize.
  rewrite Hstep. exact H.
Qed.

Lemma bias_only_decoder_norm :
  nth 0 (vector_norm_dim0 (weight (dec bias_only))) 0 = 1.
Proof.
  rewrite (nth_vector_norm_dim0 1) by (repeat constructor).
  cbn. rewrite Rplus_0_r, Rmult_1_r. apply sqrt_1.
Qed.

Lemma eps_le_1 : normalize_eps <= 1.
Proof.
  apply Rle_trans with (/ 1); [|rewrite Rinv_1; lra].
  unfold normalize_eps.
  apply Rinv_le_contravar; [lra|]. apply IZR_le. discriminate.
Qed.

Lemma decoder_columns_unit_after_normalize_witness :
  rows_of 1 (weight (dec bias_only)) /\
  nth 0 (vector_norm_dim0 (weight (dec (init_normalize bias_only)))) 0 = 1 /\
  nth 0 (vector_norm_dim0
           (weight (dec (periodic_normalize 2000 bias_only)))) 0 = 1.
Proof.
  assert (H1 : rows_of 1 (weight (dec bias_only))) by (repeat constructor).
  split; [exact H1|].
  assert (H2 : normalize_eps
               <= nth 0 (vector_norm_dim0 (weight (dec bias_only))) 0)
    by (rewrite bias_only_decoder_norm; exact eps_le_1).
  destruct (decoder_columns_unit_after_normalize 1 0 2000 bias_only H1
              Nat.lt_0_1 H2) as [Ha Hb].
  split; [exact Ha|]. apply Hb. reflexivity.
Defined.

(** C6 as stated fails: a decoder column that is zero stays zero when it
    is normalised, at initialisation and at step 0 alike. *)
Lemma dead_column_stays_zero :
  nth 0 (vector_norm_dim0 (weight (dec (init_normalize dead_column)))) 0
    <> 1 /\
  nth 0 (vector_norm_dim0
           (weight (dec (periodic_normalize 0 dead_column)))) 0 <> 1.
Proof.
  assert (H : nth 0 (vector_norm_dim0
                       (weight (dec (init_normalize dead_column)))) 0 = 0).
  { cbn [init_normalize dec weight dead_column].
    rewrite (nth_vector_norm_dim0 1)
      by (try apply rows_of_normalize_dim0; repeat constructor).
    rewrite (col_normalize_dim0 1) by (repeat constructor).
    cbn. unfold Rdiv. rewrite !Rmult_0_l, Rplus_0_r. apply sqrt_0. }
  split.
  - rewrite H. lra.
  - change (periodic_normalize 0 dead_column)
      with (init_normalize dead_column).
    rewrite H. lra.
Qed.

End NormalizeFacts.

(** ** The normalised reconstruction score *)

Module ScoreFacts.
Import SAE.
Open Scope R_scope.

(** C2, amended: with [full_loss <> ablated_loss] the score of line 298
    is 0 when the reconstruction loss equals [full_loss] and 1 when it
    equals [ablated_loss]. *)
Theorem nll_score_boundaries (full_loss mlp_ablated_loss : R) :
  full_loss <> mlp_ablated_loss ->
  nll_score full_loss full_loss mlp_ablated_loss = 0 /\
  nll_score full_loss mlp_ablated_loss mlp_ablated_loss = 1.
Proof.
  intros H. unfold nll_score. split; field; lra.
Qed.

Lemma nll_score_boundaries_witness :
  2 <> 3 /\ nll_score 2 2 3 = 0 /\ nll_score 2 3 3 = 1.
Proof.
  assert (H : 2 <> 3) by lra.
  split; [exact H|]. exact (nll_score_boundaries 2 3 H).
Defined.

(** C2 as stated fails: with [full_loss = 2] and [ablated_loss = 3] the
    score is not 1 at [reconst = full_loss] and not 0 at
    [reconst = ablated_loss]. *)
Lemma nll_score_boundaries_swapped :
  2 <> 3 /\ nll_score 2 2 3 <> 1 /\ nll_score 2 3 3 <> 0.
Proof.
  unfold nll_score. repeat split; lra.
Qed.

End ScoreFacts.

(** ** The forward pass *)

Module ForwardFacts.
Import Torch TorchFacts SAE.
Open Scope R_scope.

Lemma rsum_app (u v : vec) : rsum (u ++ v) = rsum u + rsum v.
Proof.
  induction u as [|a u IH]; cbn [app]; [cbn; ring|].
  rewrite !rsum_cons, IH. ring.
Qed.

Lemma tsum_ewise (g : R -> R -> R) (X Y : mat) :
  tsum (ewise g X Y) = rsum (map2 (fun r a => rsum (map2 g r a)) X Y).
Proof. unfold tsum, ewise. now rewrite map_map2. Qed.

Lemma map2_map_same {A B C : Type} (h : A -> B -> C) (g : A -> B)
      (X : list A) :
  map2 h X (map g X) = map (fun r => h r (g r)) X.
Proof. now rewrite map2_map_r, map2_diag. Qed.

Lemma numel_shape (b n : nat) (M : mat) :
  has_shape b n M -> numel M = (b * n)%nat.
Proof.
  intros [Hb Hr]. subst b. unfold numel.
  induction Hr as [|r M Hr _ IH]; [reflexivity|].
  cbn [concat length]. rewrite length_app, IH, Hr. lia.
Qed.

Lemma ncols_shape (b n : nat) (M : mat) :
  has_shape b n M -> (0 < b)%nat -> ncols M = n.
Proof.
  intros [Hb Hr] Hpos. destruct M as [|r M]; cbn in *; [lia|].
  now inversion Hr.
Qed.

Lemma length_linear (L : Linear) (x : vec) :
  length (linear L x) = Nat.min (length (weight L)) (length (bias L)).
Proof. unfold linear. apply length_map2. Qed.

Lemma codes_shape (n m b : nat) (self : AutoEncoder) (acts : mat) :
  well_shaped n m self -> length acts = b ->
  has_shape b m (f (forward self acts)).
Proof.
  intros (Hew & _ & Heb & _) Hb. split.
  - cbn. unfold bcast. now rewrite !length_map.
  - cbn. unfold rows_of, bcast. rewrite !Forall_map.
    apply Forall_forall. intros r _.
    rewrite length_map, length_linear. lia.
Qed.

Lemma reconst_shape (n m b : nat) (self : AutoEncoder) (acts : mat) :
  well_shaped n m self -> length acts = b ->
  has_shape b n (reconst_acts (forward self acts)).
Proof.
  intros (_ & _ & _ & Hdw & _ & Hdb) Hb. split.
  - cbn. unfold bcast. now rewrite !length_map.
  - cbn. unfold rows_of, bcast. rewrite !Forall_map.
    apply Forall_forall. intros r _. rewrite length_linear. lia.
Qed.

Lemma l1_loss_zeros (F : mat) : l1_loss_sum F (zeros_like F) = spec_l1 F.
Proof.
  unfold l1_loss_sum, spec_l1, zeros_like. rewrite tsum_ewise.
  rewrite map2_map_same. f_equal. apply map_ext. intros r.
  rewrite map2_map_same. f_equal. apply map_ext. intros x.
  now rewrite Rminus_0_r.
Qed.

Lemma mse_loss_spec (b n : nat) (recon acts : mat) :
  has_shape b n recon -> has_shape b n acts ->
  mse_loss recon acts = spec_mse recon acts.
Proof.
  intros Hr Ha. unfold mse_loss, spec_mse.
  rewrite tsum_ewise, (numel_shape b n) by assumption.
  rewrite (map2_ext (fun r a => rsum (map2 (fun x y => (x - y) * (x - y)) r a))
                    (fun r a => rsum (map2 (fun x y => (x - y) ^ 2) r a)))
    by (intros; f_equal; apply map2_ext; intros; ring).
  destruct Ha as [Hb Hrows]. rewrite Hb.
  destruct b as [|b'].
  - cbn. unfold Rdiv. now rewrite !Rmult_0_l, !Rinv_0.
  - rewrite (ncols_shape (S b') n) by (try split; auto; lia).
    now rewrite mult_INR.
Qed.

Lemma relu_nonneg (x : R) : 0 <= relu x.
Proof. unfold relu. apply Rmax_l. Qed.

Lemma codes_nonneg (self : AutoEncoder) (acts : mat) :
  Forall (Forall (fun x => 0 <= x)) (f (forward self acts)).
Proof.
  cbn. unfold bcast. rewrite !Forall_map. apply Forall_forall. intros r _.
  rewrite Forall_map. apply Forall_forall. intros x _. apply relu_nonneg.
Qed.

(** C4: on a batch of shape [(b, n)] the forward pass centres the batch on
    the decoder bias, encodes with a ReLU, decodes, and returns the mean
    squared error against the uncentred batch, the L1 norms of the codes
    added up over the batch (so the value over two batches put together is
    the sum of the two values), [mse + lam * l1], the codes and the
    reconstruction. *)
Theorem forward_returns_losses_and_tensors
  (n m b : nat) (self : AutoEncoder) (acts : mat) :
  well_shaped n m self -> has_shape b n acts ->
  let o := forward self acts in
  f o = spec_codes self acts /\
  has_shape b m (f o) /\
  Forall (Forall (fun x => 0 <= x)) (f o) /\
  reconst_acts o = map (linear (dec self)) (f o) /\
  has_shape b n (reconst_acts o) /\
  mseloss o = spec_mse (reconst_acts o) acts /\
  l1loss o = spec_l1 (f o) /\
  (forall more : mat,
      l1loss (forward self (acts ++ more))
      = l1loss o + l1loss (forward self more)) /\
  loss o = mseloss o + lam self * l1loss o.
Proof.
  intros Hself Hacts o.
  assert (Hl1 : forall a, l1loss (forward self a) = spec_l1 (f (forward self a)))
    by (intros a; apply l1_loss_zeros).
  assert (Hb : length acts = b) by apply Hacts.
  split. { cbn. unfold bcast, spec_codes. now rewrite map_map. }
  split. { now apply (codes_shape n m). }
  split. { apply codes_nonneg. }
  split. { reflexivity. }
  split. { now apply (reconst_shape n m). }
  split. { apply (mse_loss_spec b n); auto. now apply (reconst_shape n m). }
  split. { apply Hl1. }
  split; [|reflexivity].
  intros more. unfold o. rewrite !Hl1. cbn [forward f].
  unfold spec_l1, bcast. rewrite !map_app. apply rsum_app.
Qed.

Lemma bias_only_well_shaped : well_shaped 1 1 bias_only.
Proof. unfold well_shaped, rows_of. cbn. repeat split; repeat constructor. Qed.

Lemma forward_returns_losses_and_tensors_witness :
  well_shaped 1 1 bias_only /\ has_shape 1 1 [[5]] /\
  mseloss (forward bias_only [[5]])
  = spec_mse (reconst_acts (forward bias_only [[5]])) [[5]] /\
  l1loss (forward bias_only [[5]]) = spec_l1 (f (forward bias_only [[5]])).
Proof.
  assert (H1 : well_shaped 1 1 bias_only) by exact bias_only_well_shaped.
  assert (H2 : has_shape 1 1 [[5]]) by (split; repeat constructor).
  split; [exact H1|]. split; [exact H2|].
  pose proof (forward_returns_losses_and_tensors 1 1 1 bias_only [[5]] H1 H2)
    as H.
  cbv zeta in H. split; apply H.
Defined.

(** *** The all-zero batch *)

Lemma map2_repeat {A B C : Type} (g : A -> B -> C) (x : A) (y : B) (k : nat) :
  map2 g (repeat x k) (repeat y k) = repeat (g x y) k.
Proof. induction k as [|k IH]; cbn; [reflexivity|]. now rewrite IH. Qed.

Lemma Forall_zero_repeat (v : vec) :
  Forall (fun x => x = 0) v -> v = repeat 0 (length v).
Proof.
  induction 1 as [|a v Ha _ IH]; [reflexivity|].
  cbn. now rewrite Ha, <- IH.
Qed.

Lemma dot_zeros (w : vec) (k : nat) : dot w (repeat 0 k) = 0.
Proof.
  unfold dot. revert k. induction w as [|a w IH]; intros [|k]; cbn [repeat map2];
    try reflexivity.
  rewrite rsum_cons, IH. ring.
Qed.

Lemma linear_zeros (L : Linear) (k : nat) :
  length (weight L) = length (bias L) -> linear L (repeat 0 k) = bias L.
Proof.
  unfold linear. generalize (bias L). generalize (weight L) as W.
  induction W as [|w W IH]; intros [|c bs] Hlen; cbn in Hlen; try lia.
  - reflexivity.
  - cbn [map2]. rewrite dot_zeros, Rplus_0_l, IH by lia. reflexivity.
Qed.

Lemma numel_repeat (r : vec) (k : nat) :
  numel (repeat r k) = (k * length r)%nat.
Proof.
  unfold numel. induction k as [|k IH]; [reflexivity|].
  cbn [repeat concat]. rewrite length_app, IH. lia.
Qed.

(** What the forward pass returns on [torch.zeros(b, n)]: every row of the
    codes is the same vector [c]. *)
Lemma forward_zeros (b n : nat) (self : AutoEncoder) :
  let c := map relu (linear (enc self)
                            (map2 Rminus (repeat 0 n) (bias (dec self)))) in
  let r := linear (dec self) c in
  l1loss (forward self (zeros b n)) = INR b * rsum (map Rabs c) /\
  mseloss (forward self (zeros b n))
  = INR b * rsum (map2 (fun x y => (x - y) * (x - y)) r (repeat 0 n))
    / INR (b * length r).
Proof.
  intros c r. split.
  - cbn [forward l1loss]. rewrite l1_loss_zeros.
    unfold spec_l1, zeros, bcast.
    rewrite !map_repeat. fold c. apply rsum_repeat.
  - cbn [forward mseloss]. unfold mse_loss, zeros, bcast.
    rewrite !map_repeat. fold c. fold r.
    rewrite tsum_ewise, map2_repeat, rsum_repeat, numel_repeat.
    reflexivity.
Qed.

Lemma relu_zero_iff (x : R) : relu x = 0 <-> x <= 0.
Proof.
  unfold relu. split; intros H.
  - rewrite <- H. apply Rmax_r.
  - now apply Rmax_left.
Qed.

Lemma squares_against_zeros (v : vec) :
  map2 (fun x y => (x - y) * (x - y)) v (repeat 0 (length v))
  = map (fun x => x * x) v.
Proof.
  induction v as [|a v IH]; [reflexivity|].
  cbn [length repeat map2 map]. rewrite IH. f_equal. ring.
Qed.

Lemma rsum_squares_zero (v : vec) :
  rsum (map (fun x => x * x) v) = 0 -> Forall (fun x => x = 0) v.
Proof.
  intros H. apply rsum_zero in H.
  - rewrite Forall_map in H. revert H. apply Forall_impl. intros x Hx. nra.
  - rewrite Forall_map. apply Forall_forall. intros x _. nra.
Qed.

Lemma rsum_abs_zero (v : vec) :
  rsum (map Rabs v) = 0 -> Forall (fun x => x = 0) v.
Proof.
  intros H. apply rsum_zero in H.
  - rewrite Forall_map in H. revert H. apply Forall_impl. intros x Hx.
    destruct (Req_dec x 0) as [|Hn]; [assumption|].
    apply Rabs_no_R0 in Hn. contradiction.
  - rewrite Forall_map. apply Forall_forall. intros x _. apply Rabs_pos.
Qed.

(** C8, amended: on a non-empty all-zero batch the forward pass returns
    zero MSE and zero L1 exactly when the decoder bias is zero and no entry
    of the encoder bias is positive (in particular when both biases are
    zero); the weights play no part. *)
Theorem zero_batch_losses_vanish_iff
  (n m b : nat) (self : AutoEncoder) :
  well_shaped n m self -> (0 < b)%nat -> (0 < n)%nat ->
  (mseloss (forward self (zeros b n)) = 0 /\
   l1loss (forward self (zeros b n)) = 0)
  <->
  (Forall (fun x => x = 0) (bias (dec self)) /\
   Forall (fun x => x <= 0) (bias (enc self))).
Proof.
  intros (Hew & Her & Heb & Hdw & Hdr & Hdb) Hb Hn.
  destruct (forward_zeros b n self) as [Hl1 Hmse].
  set (c := map relu (linear (enc self)
                             (map2 Rminus (repeat 0 n) (bias (dec self)))))
    in *.
  assert (Hclen : length c = m)
    by (unfold c; rewrite length_map, length_linear; lia).
  assert (Hrlen : length (linear (dec self) c) = n)
    by (rewrite length_linear; lia).
  assert (HINRb : 0 < INR b) by (apply lt_0_INR; exact Hb).
  assert (HINRn : 0 < INR n) by (apply lt_0_INR; exact Hn).
  rewrite Hrlen in Hmse. rewrite Hl1, Hmse. clear Hl1 Hmse.
  assert (Hcentred : Forall (fun x => x = 0) (bias (dec self)) ->
                     c = map relu (bias (enc self))).
  { intros Hz. apply Forall_zero_repeat in Hz. rewrite Hdb in Hz.
    unfold c. rewrite Hz, map2_repeat, Rminus_0_r, linear_zeros by lia.
    reflexivity. }
  split.
  - intros [Hm Hl].
    assert (Hc0 : c = repeat 0 m).
    { rewrite <- Hclen. apply Forall_zero_repeat, rsum_abs_zero. nra. }
    assert (Hd0 : Forall (fun x => x = 0) (bias (dec self))).
    { rewrite Hc0, linear_zeros in Hm by lia.
      rewrite <- Hdb in Hm at 1. rewrite squares_against_zeros in Hm.
      apply rsum_squares_zero.
      rewrite mult_INR in Hm.
      pose proof (rsum_squares_nonneg (bias (dec self))) as Hnn.
      unfold Rdiv in Hm.
      apply Rmult_integral in Hm as [Hm|Hm].
      - nra.
      - exfalso. revert Hm. apply Rinv_neq_0_compat. nra. }
    split; [exact Hd0|].
    rewrite (Hcentred Hd0) in Hc0.
    apply Forall_forall. intros x Hx.
    apply relu_zero_iff.
    assert (Hin : In (relu x) (map relu (bias (enc self))))
      by (now apply in_map).
    rewrite Hc0 in Hin. now apply repeat_spec in Hin.
  - intros [Hd0 He0].
    assert (Hc0 : c = repeat 0 m).
    { rewrite (Hcentred Hd0), <- Heb.
      rewrite <- (length_map relu). apply Forall_zero_repeat.
      rewrite Forall_map. revert He0. apply Forall_impl.
      intros x. apply relu_zero_iff. }
    rewrite Hc0, linear_zeros by lia.
    apply Forall_zero_repeat in Hd0. rewrite Hdb in Hd0. rewrite Hd0.
    rewrite map2_repeat, map_repeat, !rsum_repeat, Rabs_R0.
    split; unfold Rdiv; ring.
Qed.

Lemma zero_batch_losses_vanish_iff_witness :
  well_shaped 1 1 dead_column /\
  mseloss (forward dead_column (zeros 1 1)) = 0 /\
  l1loss (forward dead_column (zeros 1 1)) = 0.
Proof.
  assert (H1 : well_shaped 1 1 dead_column)
    by (unfold well_shaped, rows_of; cbn; repeat split; repeat constructor).
  split; [exact H1|].
  apply (zero_batch_losses_vanish_iff 1 1 1 dead_column H1 Nat.lt_0_1
                                     Nat.lt_0_1).
  cbn. split.
  - constructor; [reflexivity|constructor].
  - constructor; [apply Rle_refl|constructor].
Defined.

(** C8 as stated fails: with encoder bias 1, and every other bias and the
    encoder weight zero, the all-zero batch [[0]] is encoded as 1 and
    decoded as 1, so both losses are 1. *)
Lemma zero_batch_losses_of_bias_only :
  mseloss (forward bias_only (zeros 1 1)) = 1 /\
  l1loss (forward bias_only (zeros 1 1)) = 1 /\
  ~ (mseloss (forward bias_only (zeros 1 1)) = 0 /\
     l1loss (forward bias_only (zeros 1 1)) = 0).
Proof.
  assert (Hrelu : relu ((0 * (0 - 0) + 0) + 1) = 1)
    by (unfold relu; rewrite Rmax_right; lra).
  assert (Hm : mseloss (forward bias_only (zeros 1 1)) = 1).
  { cbn. unfold mse_loss, tsum, ewise, dot, linear, numel. cbn.
    rewrite Hrelu. field. }
  assert (Hl : l1loss (forward bias_only (zeros 1 1)) = 1).
  { cbn [forward l1loss]. rewrite l1_loss_zeros.
    cbn. unfold spec_l1, dot, linear. cbn.
    rewrite Hrelu, Rabs_R1. ring. }
  rewrite Hm, Hl. repeat split; try reflexivity. intros [H _]. lra.
Qed.

End ForwardFacts.

(** ** The evaluation counters *)

Module EvalFacts.
Import Py PyFacts Eval.
Open Scope Z_scope.

Lemma bind_ok {A B : Type} (r : result A) (k : A -> result B) (b : B) :
  bind r k = Ok b -> exists a, r = Ok a /\ k a = Ok b.
Proof. destruct r as [a|e]; cbn; [eauto|discriminate]. Qed.


Lemma mapM_Forall {A B : Type} (g : A -> result B) (P : B -> Prop)
      (l : list A) :
  (forall a b, g a = Ok b -> P b) ->
  forall bs, mapM g l = Ok bs -> Forall P bs.
Proof.
  intros HP. induction l as [|a l IH]; cbn [mapM]; intros bs H.
  - inversion H. constructor.
  - apply bind_ok in H as (b & Hb & H). apply bind_ok in H as (bs' & Hbs & H).
    inversion H. constructor; eauto.
Qed.

Lemma mapM_ok {A B : Type} (g : A -> result B) (l : list A) :
  Forall (fun a => exists b, g a = Ok b) l -> exists bs, mapM g l = Ok bs.
Proof.
  induction 1 as [|a l [b Hb] _ [bs Hbs]]; cbn [mapM].
  - eauto.
  - rewrite Hb. cbn [bind]. rewrite Hbs. cbn [bind]. eauto.
Qed.

Lemma index_ok {A : Type} (l : list A) (i : Z) :
  0 <= i < len l -> exists x, index l i = Ok x.
Proof.
  intros H. unfold index.
  destruct (i <? 0) eqn:Hi; [apply Z.ltb_lt in Hi; lia|].
  cbv zeta. rewrite Hi.
  destruct (nth_error l (Z.to_nat i)) eqn:E; [eauto|].
  apply nth_error_None in E. unfold len in H. lia.
Qed.

Lemma index_In {A : Type} (l : list A) (i : Z) (x : A) :
  index l i = Ok x -> In x l.
Proof.
  unfold index.
  destruct (_ <? 0); [discriminate|].
  destruct (nth_error l _) eqn:E; [|discriminate].
  intros [= <-]. eapply nth_error_In; eauto.
Qed.


Lemma In_range (k i : Z) : In i (range k) <-> 0 <= i < k.
Proof.
  unfold range. rewrite in_map_iff. split.
  - intros (j & <- & Hj). apply in_seq in Hj. lia.
  - intros H. exists (Z.to_nat i). split; [lia|]. apply in_seq. lia.
Qed.

Section Bounds.
Variables (Act Code : Type) (sae_f : Act -> list Code)
          (nonzero : Code -> bool).
Variables (G n_features : Z).






Lemma length_zadd (u v : list Z) :
  length (zadd u v) = Nat.min (length u) (length v).
Proof. apply TorchFacts.length_map2. Qed.


Section Pass.
Variables (storage : list (list Act)) (selected_tokens_loc : list (list Z)).
Variable eval_context_tokens : Z.
Hypothesis sampled :
  Forall (fun sel => len sel = eval_context_tokens) selected_tokens_loc.
Hypothesis G_pos : 0 < G.




End Pass.
Section Totality.
Variables (storage : list (list Act)) (selected_tokens_loc : list (list Z)).
Variables (eval_contexts eval_context_tokens block_size : Z).
Hypothesis G_pos : 0 < G.
Hypothesis contexts_nonneg : 0 <= eval_contexts.
Hypothesis stored : eval_contexts / G * G <= len storage.
Hypothesis windows : Forall (fun ctx => len ctx = block_size) storage.
Hypothesis sampled_all : len selected_tokens_loc = eval_contexts.
Hypothesis in_window :
  Forall (Forall (fun p => 0 <= p < block_size)) selected_tokens_loc.

Lemma In_slice {A : Type} (l : list A) (lo hi : Z) (x : A) :
  In x (slice l lo hi) -> In x l.
Proof.
  unfold slice. intros H.
  rewrite <- (firstn_skipn (Z.to_nat (slice_bound (len l) lo)) l).
  apply in_or_app. right.
  rewrite <- (firstn_skipn
                (Z.to_nat (slice_bound (len l) hi - slice_bound (len l) lo))
                (skipn (Z.to_nat (slice_bound (len l) lo)) l)).
  apply in_or_app. now left.
Qed.

Lemma batches_cover (iter : Z) :
  0 <= iter < eval_contexts / G ->
  0 <= iter * G /\ (iter + 1) * G <= len storage /\ iter < eval_contexts.
Proof.
  intros H.
  assert (eval_contexts / G * G <= eval_contexts)
    by (rewrite Z.mul_comm; apply Z.mul_div_le; lia).
  nia.
Qed.

Lemma count_batch_ok (counts : list Z) (iter : Z) :
  0 <= iter < eval_contexts / G ->
  exists counts',
    count_batch Act Code sae_f nonzero G n_features storage
                selected_tokens_loc counts iter = Ok counts'.
Proof.
  intros Hiter. destruct (batches_cover iter Hiter) as (H0 & H1 & H2).
  unfold count_batch.
  destruct (index_ok selected_tokens_loc iter) as [sel Hsel]; [lia|].
  rewrite Hsel. cbn [bind].
  assert (Hpos : Forall (fun p => 0 <= p < block_size) sel).
  { apply index_In in Hsel. rewrite Forall_forall in in_window.
    now apply in_window. }
  destruct (mapM_ok
              (fun i => take_tokens Code
                          (map (map sae_f) (slice_fn G iter storage)) i sel)
              (range G)) as [acts Hacts].
  - apply Forall_forall. intros i Hi. apply In_range in Hi.
    unfold take_tokens.
    destruct (index_ok (map (map sae_f) (slice_fn G iter storage)) i)
      as [ctx Hctx].
    { unfold len. rewrite length_map. fold (len (slice_fn G iter storage)).
      unfold slice_fn. rewrite len_slice by lia. lia. }
    rewrite Hctx. cbn [bind]. apply mapM_ok.
    apply index_In in Hctx. apply in_map_iff in Hctx as (ctx0 & <- & Hin).
    apply In_slice in Hin. rewrite Forall_forall in windows.
    specialize (windows ctx0 Hin).
    revert Hpos. apply Forall_impl. intros p Hp. apply index_ok.
    unfold len in *. rewrite length_map. lia.
  - unfold selected_feature_acts. rewrite Hacts. cbn [bind]. eauto.
Qed.

Lemma foldM_count_ok (iters : list Z) :
  Forall (fun iter => 0 <= iter < eval_contexts / G) iters ->
  forall counts,
  exists counts',
    foldM (count_batch Act Code sae_f nonzero G n_features storage
                       selected_tokens_loc) iters counts = Ok counts'.
Proof.
  induction 1 as [|iter iters Hiter _ IH]; intros counts; cbn [foldM].
  - eauto.
  - destruct (count_batch_ok counts iter Hiter) as [c1 Hc1].
    rewrite Hc1. cbn [bind]. apply IH.
Qed.

Lemma feature_activation_counts_ok :
  exists counts,
    feature_activation_counts Act Code sae_f nonzero G n_features
      eval_contexts storage selected_tokens_loc = Ok counts.
Proof.
  unfold feature_activation_counts, floordiv.
  destruct (Z.eqb_spec G 0) as [|_]; [lia|]. cbn [bind].
  apply foldM_count_ok. apply Forall_forall. intros i Hi.
  now apply In_range in Hi.
Qed.

End Totality.

End Bounds.
End EvalFacts.

Module EvalClaims.
Import Py PyFacts Eval EvalFacts.
Open Scope Z_scope.




(** C3 (the code departs from it): on the toy evaluation set, with both
    contexts in one sub-batch, the pass counts both contexts at position 0,
    the position sampled for context 0, and returns 2; counting each
    context at its own position gives 1.  The position sampled for
    context 1 is never read: changing it does not change the result. *)
Theorem counts_use_positions_of_another_context :
  feature_activation_counts Z Z toy_codes toy_nonzero 2 1 2
    toy_storage toy_selected = Ok [2] /\
  spec_feature_activation_counts Z Z toy_codes toy_nonzero 2 1 2
    toy_storage toy_selected = Ok [1] /\
  (forall p : Z,
     feature_activation_counts Z Z toy_codes toy_nonzero 2 1 2
       toy_storage [[0]; [p]] = Ok [2]).
Proof.
  split; [reflexivity|]. split; [reflexivity|]. intros p. reflexivity.
Qed.

End EvalClaims.

(** ** What the batch loader reads *)

Module StreamWindows.
Import Py PyFacts Stream StreamFacts.
Open Scope Z_scope.

Lemma firstn_plus {A : Type} (a b : nat) (l : list A) :
  firstn (a + b) l = firstn a l ++ firstn b (skipn a l).
Proof.
  revert l. induction a as [|a IH]; intros [|x l]; cbn; try reflexivity.
  - now rewrite firstn_nil.
  - now rewrite IH.
Qed.

Lemma window_in_part {A : Type} (p R : list A) (a b : nat) :
  (a + b <= length p)%nat ->
  firstn b (skipn a (p ++ R)) = firstn b (skipn a p).
Proof.
  intros H. rewrite skipn_app, firstn_app, length_skipn.
  replace (a - length p)%nat with O by lia.
  replace (b - (length p - a))%nat with O by lia.
  cbn. now rewrite app_nil_r.
Qed.

Lemma window_across {A : Type} (p next R : list A) (a b : nat) :
  (a <= length p)%nat -> (length p <= a + b)%nat ->
  (a + b - length p <= length next)%nat ->
  firstn b (skipn a (p ++ next ++ R))
  = skipn a p ++ firstn (a + b - length p) next.
Proof.
  intros H1 H2 H3. rewrite skipn_app, firstn_app, length_skipn.
  replace (a - length p)%nat with O by lia.
  rewrite firstn_all2 by (rewrite length_skipn; lia).
  cbn [skipn]. f_equal.
  replace (b - (length p - a))%nat with (a + b - length p)%nat by lia.
  rewrite firstn_app.
  replace (a + b - length p - length next)%nat with O by lia.
  cbn. now rewrite app_nil_r.
Qed.

Lemma skipn_nth_error {A : Type} (l : list A) :
  forall (k : nat) (x : A),
    nth_error l k = Some x -> skipn k l = x :: skipn (S k) l.
Proof.
  induction l as [|y l IH]; intros [|k] x H; cbn in *; try discriminate.
  - now inversion H.
  - now apply IH.
Qed.

Lemma skipn_concat_part {A : Type} (E : nat) (dir : list (list A)) :
  Forall (fun p => length p = E) dir ->
  forall k, skipn (k * E) (concat dir) = concat (skipn k dir).
Proof.
  induction 1 as [|p dir Hp _ IH]; intros [|k]; cbn [concat skipn Nat.mul];
    try reflexivity.
  - now rewrite skipn_nil.
  - rewrite skipn_app, <- Hp, skipn_all2 by lia.
    replace (length p + k * length p - length p)%nat with (k * length p)%nat
      by lia.
    rewrite Hp. cbn [app]. apply IH.
Qed.

Lemma torch_load_nth {A : Type} (dir : sae_data A) (i : Z) (p : list A) :
  torch_load dir i = Ok p -> 0 <= i /\ nth_error dir (Z.to_nat i) = Some p.
Proof.
  unfold torch_load. destruct (Z.ltb_spec i 0); [discriminate|].
  destruct (nth_error dir (Z.to_nat i)); [|discriminate].
  intros [= ->]. auto.
Qed.

Lemma len_concat_equal {A : Type} (dir : list (list A)) (E : Z) :
  Forall (fun p => len p = E) dir -> len (concat dir) = len dir * E.
Proof.
  induction 1 as [|p dir Hp _ IH]; [reflexivity|].
  cbn [concat]. rewrite len_app, IH, Hp. unfold len. cbn [length]. lia.
Qed.

Section Windows.
Variable Example : Type.
Variables (dir : sae_data Example) (E B : Z).
Hypothesis parts_equal : Forall (fun p => len p = E) dir.
Hypothesis batch_pos : 0 < B.
Hypothesis batch_fits : B <= E.

Let n := len dir.
Let data := concat dir.

Lemma len_data : len data = n * E.
Proof. unfold data, n. now apply len_concat_equal. Qed.

Lemma parts_equal_nat :
  Forall (fun p : list Example => length p = Z.to_nat E) dir.
Proof.
  revert parts_equal. apply Forall_impl. intros p Hp. unfold len in Hp. lia.
Qed.

(** The examples of partition [c] from index [a] on, followed by the later
    partitions, are the concatenated data from [c * E + a] on. *)
Lemma skipn_data (c a : Z) (p : list Example) :
  torch_load dir c = Ok p -> 0 <= a ->
  skipn (Z.to_nat (c * E + a)) data
  = skipn (Z.to_nat a) (p ++ concat (skipn (S (Z.to_nat c)) dir)).
Proof.
  intros Hp Ha. pose proof (torch_load_len _ dir E parts_equal c p Hp) as Hlen.
  apply torch_load_nth in Hp as [Hc Hnth].
  assert (HE : 0 <= E) by (rewrite <- Hlen; unfold len; lia).
  replace (Z.to_nat (c * E + a))
    with (Z.to_nat a + Z.to_nat c * Z.to_nat E)%nat by nia.
  rewrite <- skipn_skipn. unfold data.
  rewrite (skipn_concat_part (Z.to_nat E)) by exact parts_equal_nat.
  rewrite (skipn_nth_error dir _ p Hnth). reflexivity.
Qed.

(** One pass through the loading code returns [batch_size] consecutive
    examples of the concatenated partitions, starting [offset] examples
    before [step * batch_size]. *)
Lemma load_batch_window (s : Z) (c c' : cursor Example) (l : loaded Example) :
  ready dir E B s c -> 0 <= s -> (s + 1) * B <= n * E ->
  load_batch dir n E B c s = Ok (c', l) ->
  batch l = slice data (s * B - offset c) (s * B - offset c + B).
Proof.
  intros Hr Hs0 Hlast Hl.
  destruct Hr as (Hc & Hload & Ho & Hs).
  pose proof (torch_load_len _ dir E parts_equal _ _ Hload) as Hlen.
  set (bstart := s * B - current_part_index c * E - offset c) in *.
  assert (Hbs : bstart = s * B - current_part_index c * E - offset c)
    by reflexivity.
  assert (Hg : s * B - offset c = current_part_index c * E + bstart) by lia.
  assert (Hp : length (current_part c) = Z.to_nat E)
    by (unfold len in Hlen; lia).
  unfold slice.
  rewrite !slice_bound_inside by (rewrite len_data; fold n; nia).
  replace (s * B - offset c + B - (s * B - offset c)) with B by lia.
  rewrite Hg, (skipn_data _ _ _ Hload) by lia.
  unfold load_batch in Hl. fold bstart in Hl.
  replace ((s + 1) * B - current_part_index c * E - offset c)
    with (bstart + B) in Hl by lia.
  destruct (Z.ltb_spec E (bstart + B)) as [Hover|Hin];
    destruct (Z.ltb_spec (current_part_index c) (n - 1)) as [Hmore|Hlastp];
    cbn [andb] in Hl.
  - destruct (torch_load dir (current_part_index c + 1)) as [nx|e] eqn:Hnx;
      cbn [bind] in Hl; [|discriminate].
    destruct (_ =? B) in Hl; [|discriminate].
    inversion Hl; subst c' l; clear Hl. cbn [batch].
    pose proof (torch_load_len _ dir E parts_equal _ _ Hnx) as Hnlen.
    apply torch_load_nth in Hnx as [_ Hnth].
    replace (Z.to_nat (current_part_index c + 1))
      with (S (Z.to_nat (current_part_index c))) in Hnth by lia.
    rewrite (skipn_nth_error dir _ nx Hnth). cbn [concat].
    unfold len in Hnlen.
    rewrite window_across by lia.
    unfold slice_from, slice_to.
    rewrite !slice_bound_inside by (unfold len; lia).
    do 2 f_equal. lia.
  - exfalso. nia.
  - cbn [bind] in Hl. destruct (_ =? B) in Hl; [|discriminate].
    inversion Hl; subst c' l; clear Hl. cbn [batch].
    rewrite window_in_part by lia.
    unfold slice. rewrite !slice_bound_inside by (unfold len; lia).
    do 2 f_equal. lia.
  - cbn [bind] in Hl. destruct (_ =? B) in Hl; [|discriminate].
    inversion Hl; subst c' l; clear Hl. cbn [batch].
    rewrite window_in_part by lia.
    unfold slice. rewrite !slice_bound_inside by (unfold len; lia).
    do 2 f_equal. lia.
Qed.

(** An invariant [P] of the loop variables that every pass through the
    loading code preserves, together with a property [Q] of what each pass
    loads, holds along the whole loop. *)
Lemma run_steps_inv (P : Z -> cursor Example -> Prop)
      (Q : loaded Example -> Prop) :
  (forall s c c' l,
      0 <= s -> (s + 1) * B <= n * E -> ready dir E B s c -> P s c ->
      load_batch dir n E B c s = Ok (c', l) -> P (s + 1) c' /\ Q l) ->
  forall (k s : nat) (c : cursor Example),
    ready dir E B (Z.of_nat s) c -> P (Z.of_nat s) c ->
    (Z.of_nat s + Z.of_nat k) * B <= n * E ->
    forall ls,
      run_steps dir n E B c (map Z.of_nat (seq s k)) = Ok ls ->
      Forall Q ls.
Proof.
  intros Hstep. induction k as [|k IH]; intros s c Hr HP Hk ls Hls.
  - cbn in Hls. inversion Hls. constructor.
  - cbn [seq map run_steps] in Hls.
    destruct (load_batch_ready Example dir E B parts_equal batch_pos
                batch_fits (Z.of_nat s) c Hr)
      as (c' & l & Hl & Hr' & _); [lia|fold n; nia|].
    fold n in Hl. rewrite Hl in Hls. cbn [bind fst snd] in Hls.
    destruct (Hstep (Z.of_nat s) c c' l) as [HP' HQ];
      [lia|nia|assumption|assumption|assumption|].
    destruct (run_steps dir n E B c' (map Z.of_nat (seq (S s) k)))
      as [ls'|e] eqn:Hrest; cbn [bind] in Hls; [|discriminate].
    inversion Hls; subst ls. constructor; [exact HQ|].
    replace (Z.of_nat s + 1) with (Z.of_nat (S s)) in * by lia.
    apply (IH (S s) c'); auto. lia.
Qed.

(** The loop of [training_batches], started. *)
Lemma training_batches_started :
  dir <> [] ->
  exists p0,
    ready dir E B 0 (mkCursor 0 p0 0) /\
    0 <= n * E / B /\ (n * E / B) * B <= n * E /\
    training_batches dir B
    = run_steps dir n E B (mkCursor 0 p0 0)
                (map Z.of_nat (seq 0 (Z.to_nat (n * E / B)))).
Proof.
  intros Hne.
  assert (Hn : 0 < n).
  { unfold n, len. destruct (length dir) eqn:Hlen; [|lia].
    apply length_zero_iff_nil in Hlen. contradiction. }
  destruct (torch_load_some Example dir 0) as [p0 H0]; [fold n; lia|].
  assert (Hp0 : len p0 = E) by (eapply torch_load_len; eauto).
  assert (HE : 0 <= E) by (rewrite <- Hp0; unfold len; lia).
  exists p0. repeat split.
  - cbn. lia.
  - cbn. lia.
  - exact H0.
  - cbn. lia.
  - cbn. lia.
  - cbn. lia.
  - cbn. lia.
  - apply Z.div_pos; nia.
  - rewrite Z.mul_comm. apply Z.mul_div_le. lia.
  - unfold training_batches. rewrite H0. cbn [bind]. rewrite Hp0.
    unfold floordiv. destruct (Z.eqb_spec B 0) as [|_]; [lia|].
    reflexivity.
Qed.

Lemma training_batches_returns :
  dir <> [] ->
  exists ls,
    training_batches dir B = Ok ls /\
    length ls = Z.to_nat (n * E / B) /\
    Forall (fun l => len (batch l) = B) ls /\
    map at_step ls = range (n * E / B).
Proof.
  intros Hne.
  destruct (training_batches_started Hne) as (p0 & Hr & HK & HKB & Hrun).
  destruct (run_steps_ready Example dir E B parts_equal batch_pos batch_fits
              (Z.to_nat (n * E / B)) 0 (mkCursor 0 p0 0) Hr)
    as (ls & Hls & Hlen & Hall & Hsteps); [fold n; lia|].
  fold n in Hls. exists ls. rewrite Hrun. auto.
Qed.

Lemma training_batches_inv (P : Z -> cursor Example -> Prop)
      (Q : loaded Example -> Prop) :
  (forall s c c' l,
      0 <= s -> (s + 1) * B <= n * E -> ready dir E B s c -> P s c ->
      load_batch dir n E B c s = Ok (c', l) -> P (s + 1) c' /\ Q l) ->
  (forall p0, P 0 (mkCursor 0 p0 0)) ->
  forall ls, training_batches dir B = Ok ls -> Forall Q ls.
Proof.
  intros Hstep HP0 ls Hls.
  assert (Hne : dir <> []).
  { intros Hnil. rewrite Hnil in Hls. discriminate. }
  destruct (training_batches_started Hne) as (p1 & Hr & HK & HKB & Hrun).
  rewrite Hrun in Hls.
  apply (run_steps_inv P Q Hstep _ 0%nat _ Hr (HP0 p1)) in Hls; [assumption|].
  lia.
Qed.

Lemma load_batch_step (s : Z) (c c' : cursor Example) (l : loaded Example) :
  load_batch dir n E B c s = Ok (c', l) ->
  at_step l = s /\
  batch_start l = s * B - current_part_index c * E - offset c /\
  batch_end l = (s + 1) * B - current_part_index c * E - offset c /\
  (crossed l = false -> c' = c) /\
  (crossed l = true ->
   current_part_index c' = current_part_index c + 1 /\
   offset c' = batch_end l - E).
Proof.
  unfold load_batch.
  destruct (_ && _).
  - destruct (torch_load dir (current_part_index c + 1)) as [nx|e];
      cbn [bind]; [|discriminate].
    destruct (_ =? B); [|discriminate].
    intros [= <- <-]. cbn. repeat split; try discriminate; lia.
  - cbn [bind]. destruct (_ =? B); [|discriminate].
    intros [= <- <-]. cbn. repeat split; try discriminate; auto.
Qed.

End Windows.

Lemma range_succ (k : Z) : 0 <= k -> range (k + 1) = range k ++ [k].
Proof.
  intros H. unfold range.
  replace (Z.to_nat (k + 1)) with (S (Z.to_nat k)) by lia.
  rewrite seq_S, map_app. cbn. now rewrite Z2Nat.id.
Qed.

(** Consecutive slices of length [B] put end to end. *)
Lemma concat_slices {A : Type} (data : list A) (B : Z) (k : nat) :
  0 <= B -> Z.of_nat k * B <= len data ->
  concat (map (fun s => slice data (s * B) (s * B + B)) (range (Z.of_nat k)))
  = firstn (Z.to_nat (Z.of_nat k * B)) data.
Proof.
  intros HB. induction k as [|k IH]; intros Hk; [reflexivity|].
  replace (Z.of_nat (S k)) with (Z.of_nat k + 1) in * by lia.
  rewrite range_succ, map_app, concat_app, IH by lia.
  cbn [map concat]. rewrite app_nil_r.
  replace (Z.to_nat ((Z.of_nat k + 1) * B))
    with (Z.to_nat (Z.of_nat k * B) + Z.to_nat B)%nat by nia.
  rewrite firstn_plus. f_equal.
  unfold slice. rewrite !slice_bound_inside by nia.
  f_equal. lia.
Qed.

Lemma map_batch_by_step {A : Type} (F : Z -> list A) (ls : list (loaded A)) :
  Forall (fun l => batch l = F (at_step l)) ls ->
  map batch ls = map F (map at_step ls).
Proof.
  induction 1 as [|l ls Hl _ IH]; [reflexivity|].
  cbn. now rewrite Hl, IH.
Qed.

Section Runs.
Variable Example : Type.
Variables (dir : sae_data Example) (E B : Z).
Hypothesis parts_equal : Forall (fun p => len p = E) dir.
Hypothesis batch_pos : 0 < B.
Hypothesis batch_fits : B <= E.
Hypothesis some_part : dir <> [].

Let n := len dir.
Let data := concat dir.

Lemma run_windows (ls : list (loaded Example)) :
  training_batches dir B = Ok ls ->
  Forall (fun l => exists g,
              0 <= g <= at_step l * B /\ g + B <= len data /\
              batch l = slice data g (g + B)) ls.
Proof.
  apply (training_batches_inv Example dir E B parts_equal batch_pos batch_fits
           (fun _ _ => True)); [|auto].
  intros s c c' l Hs Hlast Hr _ Hl. split; [exact I|].
  pose proof (load_batch_window Example dir E B parts_equal batch_pos
                batch_fits s c c' l Hr Hs Hlast Hl) as Hw.
  destruct (load_batch_step Example dir E B s c c' l Hl) as (Hat & _).
  destruct Hr as (Hc & _ & Ho & Hb).
  exists (s * B - offset c). rewrite Hat.
  unfold data. rewrite (len_concat_equal dir E parts_equal).
  repeat split; try assumption; nia.
Qed.

(** While [step * batch_size] has not passed the end of partition 0 the
    loop variables are still the initial ones; at the first step beyond it
    (with a second partition present) they are those the first crossing
    left. *)
Let early (s : Z) (c : cursor Example) : Prop :=
  (s * B <= E -> current_part_index c = 0 /\ offset c = 0) /\
  (E < s * B -> (s - 1) * B <= E -> 1 < n ->
   current_part_index c = 1 /\ offset c = s * B - E).

Lemma early_step (s : Z) (c c' : cursor Example) (l : loaded Example) :
  0 <= s -> (s + 1) * B <= n * E -> ready dir E B s c -> early s c ->
  load_batch dir n E B c s = Ok (c', l) ->
  early (s + 1) c' /\
  ((at_step l * B <= E ->
    batch l = slice data (at_step l * B) (at_step l * B + B)) /\
   (E < at_step l * B -> (at_step l - 1) * B <= E -> 1 < n ->
    batch l = slice data E (E + B))).
Proof.
  intros Hs Hlast Hr [He1 He2] Hl.
  pose proof (load_batch_window Example dir E B parts_equal batch_pos
                batch_fits s c c' l Hr Hs Hlast Hl) as Hw.
  destruct (load_batch_step Example dir E B s c c' l Hl)
    as (Hat & Hbs & Hbe & Hsame & Hcross).
  rewrite Hat. split.
  - (* the loop variables at the next step *)
    unfold load_batch in Hl.
    destruct (Z.le_gt_cases (s * B) E) as [Hin|Hout].
    + destruct (He1 Hin) as [Hc0 Ho0]. rewrite Hc0, Ho0 in *.
      destruct (Z.ltb_spec E ((s + 1) * B - 0 * E - 0)) as [Hover|Hfit];
        destruct (Z.ltb_spec 0 (n - 1)) as [Hmore|Hone]; cbn [andb] in Hl.
      * assert (Hx : crossed l = true).
        { destruct (torch_load dir (0 + 1)) in Hl; cbn [bind] in Hl;
            [|discriminate].
          destruct (_ =? B) in Hl; [|discriminate].
          now inversion Hl. }
        destruct (Hcross Hx) as [Hc1 Ho1]. split; intros; [lia|].
        split; lia.
      * exfalso. nia.
      * assert (Hx : crossed l = false).
        { cbn [bind] in Hl. destruct (_ =? B) in Hl; [|discriminate].
          now inversion Hl. }
        rewrite (Hsame Hx). split; intros; [auto|lia].
      * assert (Hx : crossed l = false).
        { cbn [bind] in Hl. destruct (_ =? B) in Hl; [|discriminate].
          now inversion Hl. }
        rewrite (Hsame Hx). split; intros; [auto|lia].
    + split; intros; lia.
  - split.
    + intros Hin. destruct (He1 Hin) as [_ Ho0]. rewrite Ho0 in Hw.
      now rewrite Z.sub_0_r in Hw.
    + intros H1 H2 H3. destruct (He2 H1 H2 H3) as [_ Ho1].
      rewrite Ho1 in Hw.
      now replace (s * B - (s * B - E)) with E in Hw by lia.
Qed.

Lemma run_early (ls : list (loaded Example)) :
  training_batches dir B = Ok ls ->
  Forall (fun l =>
            (at_step l * B <= E ->
             batch l = slice data (at_step l * B) (at_step l * B + B)) /\
            (E < at_step l * B -> (at_step l - 1) * B <= E -> 1 < n ->
             batch l = slice data E (E + B))) ls.
Proof.
  apply (training_batches_inv Example dir E B parts_equal batch_pos batch_fits
           early).
  - intros s c c' l H1 H2 H3 H4 H5. now apply (early_step s c c' l).
  - intros p0. unfold early. cbn. split; intros; lia.
Qed.

End Runs.
End StreamWindows.

(** ** Further properties of the batch loader *)

Module StreamExtras.
Import Py PyFacts Stream StreamFacts StreamWindows.
Open Scope Z_scope.

(** Every batch the training loop loads is [batch_size] consecutive
    examples of the concatenated partitions, and it never starts beyond
    its intended position [step * batch_size]. *)
Theorem batches_are_contiguous_windows
  (Example : Type) (dir : sae_data Example) (E B : Z) :
  Forall (fun p => len p = E) dir -> 0 < B -> B <= E -> dir <> [] ->
  exists ls,
    training_batches dir B = Ok ls /\
    Forall (fun l => exists g,
                0 <= g <= at_step l * B /\ g + B <= len (concat dir) /\
                batch l = slice (concat dir) g (g + B)) ls.
Proof.
  intros Hall Hpos Hfit Hne.
  destruct (training_batches_returns Example dir E B Hall Hpos Hfit Hne)
    as (ls & Hls & _).
  exists ls. split; [exact Hls|].
  now apply (run_windows Example dir E B Hall Hpos Hfit).
Qed.

Lemma batches_are_contiguous_windows_witness :
  exists ls,
    training_batches (numbered 2 3) 2 = Ok ls /\
    Forall (fun l => exists g,
                0 <= g <= at_step l * 2 /\
                g + 2 <= len (concat (numbered 2 3)) /\
                batch l = slice (concat (numbered 2 3)) g (g + 2)) ls.
Proof.
  apply (batches_are_contiguous_windows Z (numbered 2 3) 3 2).
  - repeat constructor.
  - lia.
  - lia.
  - discriminate.
Defined.

(** When the loop ends no later than its first crossing (in particular
    with a single partition), what it consumed is the concatenated data
    truncated to a multiple of [batch_size]. *)
Theorem stream_exact_up_to_first_crossing
  (Example : Type) (dir : sae_data Example) (E B : Z) :
  Forall (fun p => len p = E) dir -> 0 < B -> B <= E -> dir <> [] ->
  (len dir * E / B - 1) * B <= E ->
  exists ls,
    training_batches dir B = Ok ls /\
    consumed ls = spec_stream dir B.
Proof.
  intros Hall Hpos Hfit Hne Hshort.
  destruct (training_batches_returns Example dir E B Hall Hpos Hfit Hne)
    as (ls & Hls & _ & _ & Hsteps).
  exists ls. split; [exact Hls|].
  pose proof (run_early Example dir E B Hall Hpos Hfit ls Hls) as Hearly.
  assert (Hin : Forall (fun l => batch l
                          = (fun s => slice (concat dir) (s * B) (s * B + B))
                              (at_step l)) ls).
  { apply Forall_forall. intros l Hl.
    rewrite Forall_forall in Hearly. apply (Hearly l Hl).
    assert (Hs : In (at_step l) (range (len dir * E / B)))
      by (rewrite <- Hsteps; now apply in_map).
    unfold range in Hs. apply in_map_iff in Hs as (k & <- & Hk).
    apply in_seq in Hk. nia. }
  unfold consumed, spec_stream.
  rewrite (map_batch_by_step _ ls Hin), Hsteps.
  rewrite (len_concat_equal dir E Hall).
  assert (HK : 0 <= len dir * E / B).
  { apply Z.div_pos; [|lia]. unfold len. nia. }
  rewrite <- (Z2Nat.id (len dir * E / B)) at 1 by exact HK.
  rewrite concat_slices.
  - now rewrite Z2Nat.id by exact HK.
  - lia.
  - rewrite Z2Nat.id by exact HK. rewrite (len_concat_equal dir E Hall).
    rewrite Z.mul_comm. apply Z.mul_div_le. lia.
Qed.

Lemma stream_exact_up_to_first_crossing_witness :
  exists ls,
    training_batches (numbered 1 7) 3 = Ok ls /\
    consumed ls = spec_stream (numbered 1 7) 3.
Proof.
  apply (stream_exact_up_to_first_crossing Z (numbered 1 7) 7 3).
  - repeat constructor.
  - lia.
  - lia.
  - discriminate.
  - vm_compute. discriminate.
Defined.

(** With a second partition present, the batch of step [E // B + 1], the
    first step whose intended start lies beyond partition 0, is the first
    [batch_size] examples of partition 1, whatever the crossing batch of
    the step before already took from it. *)
Theorem batch_after_first_crossing_restarts_partition
  (Example : Type) (dir : sae_data Example) (E B : Z) :
  Forall (fun p => len p = E) dir -> 0 < B -> B <= E -> 1 < len dir ->
  exists ls,
    training_batches dir B = Ok ls /\
    forall l, In l ls -> at_step l = E / B + 1 ->
              batch l = slice (concat dir) E (E + B).
Proof.
  intros Hall Hpos Hfit Hn.
  assert (Hne : dir <> []) by (intros ->; cbn in Hn; lia).
  destruct (training_batches_returns Example dir E B Hall Hpos Hfit Hne)
    as (ls & Hls & _).
  exists ls. split; [exact Hls|].
  pose proof (run_early Example dir E B Hall Hpos Hfit ls Hls) as Hearly.
  rewrite Forall_forall in Hearly.
  intros l Hl Hat. destruct (Hearly l Hl) as [_ H]. rewrite Hat in H.
  apply H.
  - pose proof (Z.mul_succ_div_gt E B Hpos). lia.
  - replace (E / B + 1 - 1) with (E / B) by lia.
    rewrite Z.mul_comm. apply Z.mul_div_le. lia.
  - exact Hn.
Qed.

Lemma batch_after_first_crossing_restarts_partition_witness :
  exists ls,
    training_batches (numbered 2 100) 64 = Ok ls /\
    forall l, In l ls -> at_step l = 100 / 64 + 1 ->
              batch l = slice (concat (numbered 2 100)) 100 (100 + 64).
Proof.
  apply (batch_after_first_crossing_restarts_partition Z (numbered 2 100)
           100 64).
  - repeat constructor.
  - lia.
  - lia.
  - vm_compute. reflexivity.
Defined.

(** The batches the loop loads hold [total // batch_size * batch_size]
    example slots in all, the number line 313 prints, and this slot count
    falls short of [total] by less than [batch_size].  It counts slots, not
    distinct examples: an example loaded twice counts twice. *)
Theorem consumed_count_matches_report
  (Example : Type) (dir : sae_data Example) (E B : Z) :
  Forall (fun p => len p = E) dir -> 0 < B -> B <= E -> dir <> [] ->
  exists ls,
    training_batches dir B = Ok ls /\
    len (consumed ls) = len dir * E / B * B /\
    0 <= len dir * E - len (consumed ls) < B.
Proof.
  intros Hall Hpos Hfit Hne.
  destruct (training_batches_returns Example dir E B Hall Hpos Hfit Hne)
    as (ls & Hls & Hlen & Hbatches & _).
  exists ls. split; [exact Hls|].
  assert (HK : 0 <= len dir * E / B).
  { apply Z.div_pos; [|lia]. unfold len. nia. }
  assert (Hcount : len (consumed ls) = len dir * E / B * B).
  { unfold consumed.
    rewrite (len_concat_equal (map batch ls) B)
      by (rewrite Forall_map; exact Hbatches).
    unfold len at 1. rewrite length_map, Hlen. lia. }
  split; [exact Hcount|]. rewrite Hcount.
  pose proof (Z.mod_pos_bound (len dir * E) B Hpos) as Hmod.
  rewrite Z.mod_eq in Hmod by lia. lia.
Qed.

Lemma consumed_count_matches_report_witness :
  exists ls,
    training_batches (numbered 2 100) 64 = Ok ls /\
    len (consumed ls) = len (numbered 2 100) * 100 / 64 * 64 /\
    0 <= len (numbered 2 100) * 100 - len (consumed ls) < 64.
Proof.
  apply (consumed_count_matches_report Z (numbered 2 100) 100 64).
  - repeat constructor.
  - lia.
  - lia.
  - discriminate.
Defined.

End StreamExtras.

(** ** Evaluation text and baseline cache *)

Module CacheExtras.
Import Py PyFacts Eval StreamWindows Corpus Baseline.
Open Scope Z_scope.

(** The sub-batches [slice_fn] cuts for [iter = 0 .. nb - 1] each hold
    [gpt_batch_size] entries and, put end to end, are the first
    [nb * gpt_batch_size] entries of the storage; later entries are in no
    sub-batch. *)
Theorem sub_batches_tile_storage
  (A : Type) (G nb : Z) (storage : list A) :
  0 <= G -> 0 <= nb -> nb * G <= len storage ->
  Forall (fun b => len b = G)
         (map (fun iter => slice_fn G iter storage) (range nb)) /\
  concat (map (fun iter => slice_fn G iter storage) (range nb))
  = slice_to storage (nb * G).
Proof.
  intros HG Hnb Hfit. split.
  - rewrite Forall_map. apply Forall_forall. intros it Hit.
    unfold range in Hit. apply in_map_iff in Hit as (k & <- & Hk).
    apply in_seq in Hk. unfold slice_fn. rewrite len_slice by nia. lia.
  - rewrite (map_ext _ (fun s => slice storage (s * G) (s * G + G)))
      by (intros it; unfold slice_fn; f_equal; lia).
    rewrite <- (Z2Nat.id nb) by exact Hnb.
    rewrite concat_slices by (rewrite ?Z2Nat.id; lia).
    unfold slice_to. rewrite slice_bound_inside by (rewrite Z2Nat.id; nia).
    reflexivity.
Qed.

Lemma sub_batches_tile_storage_witness :
  Forall (fun b => len b = 2)
         (map (fun iter => slice_fn 2 iter [10; 11; 12; 13; 14]) (range 2)) /\
  concat (map (fun iter => slice_fn 2 iter [10; 11; 12; 13; 14]) (range 2))
  = slice_to [10; 11; 12; 13; 14] (2 * 2).
Proof.
  apply (sub_batches_tile_storage Z 2 2 [10; 11; 12; 13; 14]).
  - lia.
  - lia.
  - vm_compute. discriminate.
Defined.

Lemma tl_firstn_skipn {A : Type} (l : list A) (i b : nat) :
  tl (firstn b (skipn i l)) = firstn (b - 1) (skipn (S i) l).
Proof.
  change (S i) with (1 + i)%nat. rewrite <- (skipn_skipn 1 i l).
  destruct (skipn i l) as [|x r]; destruct b as [|b]; cbn;
    rewrite ?firstn_nil, ?Nat.sub_0_r; reflexivity.
Qed.

Lemma removelast_firstn_full {A : Type} (l : list A) (b : nat) :
  (b <= length l)%nat -> removelast (firstn b l) = firstn (b - 1) l.
Proof.
  destruct b as [|b]; intros H; [reflexivity|].
  cbn [Nat.sub]. rewrite Nat.sub_0_r. apply removelast_firstn. lia.
Qed.

(** Every context and every target returned by [get_text_batch] has
    [block_size] tokens, and a target is its context moved one token on:
    dropping the first token of the context gives the target without its
    last token. *)
Theorem text_batch_targets_are_shifted_contexts
  (Token : Type) (data : list Token) (block_size : Z) (ix : list Z) :
  0 <= block_size ->
  drawn_below (len data - block_size) ix ->
  let (x, y) := get_text_batch Token data block_size ix in
  length x = length ix /\ length y = length ix /\
  Forall (fun r => len r = block_size) x /\
  Forall (fun r => len r = block_size) y /\
  map (@tl Token) x = map (@removelast Token) y.
Proof.
  intros Hb Hix. unfold get_text_batch, drawn_below in *.
  rewrite !length_map, !Forall_map, !map_map.
  repeat split.
  - revert Hix. apply Forall_impl. intros i Hi. rewrite len_slice; lia.
  - revert Hix. apply Forall_impl. intros i Hi. rewrite len_slice; lia.
  - apply map_ext_in. intros i Hi. rewrite Forall_forall in Hix.
    specialize (Hix i Hi). unfold slice.
    rewrite !slice_bound_inside by lia.
    replace (i + block_size - i) with block_size by lia.
    replace (i + 1 + block_size - (i + 1)) with block_size by lia.
    rewrite tl_firstn_skipn.
    rewrite removelast_firstn_full
      by (rewrite length_skipn; unfold len in Hix; lia).
    replace (Z.to_nat (i + 1)) with (S (Z.to_nat i)) by lia.
    reflexivity.
Qed.

Lemma text_batch_targets_are_shifted_contexts_witness :
  let (x, y) := get_text_batch Z [7; 8; 9; 10; 11] 2 [2; 0] in
  length x = 2%nat /\ length y = 2%nat /\
  Forall (fun r => len r = 2) x /\
  Forall (fun r => len r = 2) y /\
  map (@tl Z) x = map (@removelast Z) y.
Proof.
  apply (text_batch_targets_are_shifted_contexts Z [7; 8; 9; 10; 11] 2 [2; 0]).
  - lia.
  - repeat constructor; vm_compute; congruence.
Defined.

Section CacheFacts.
Variables (Ctx Res Act : Type).
Variable model : list Ctx -> list Ctx -> list Res * list Act * R * R.
Variable G : Z.

(** Line 188 divides by zero exactly when there are fewer contexts than
    one sub-batch. *)
Lemma build_eval_cache_error (eval_contexts : Z) (X Y : list Ctx) :
  0 < G -> 0 <= eval_contexts ->
  (build_eval_cache Ctx Res Act model G eval_contexts X Y
   = Raise ZeroDivisionError <-> eval_contexts < G).
Proof.
  intros HG Hc. unfold build_eval_cache, floordiv.
  destruct (Z.eqb_spec G 0) as [|_]; [lia|]. cbn [bind].
  destruct (Z.eqb_spec (eval_contexts / G) 0) as [H0|Hn0].
  - split; [intros _|reflexivity].
    apply Z.div_small_iff in H0; lia.
  - split; [discriminate|]. intros Hlt. exfalso. apply Hn0.
    apply Z.div_small. lia.
Qed.

Hypothesis one_row_per_context :
  forall x y res acts bl bal,
    model x y = (res, acts, bl, bal) ->
    length acts = length x /\ length res = length x.

Lemma fold_cache_lengths (X Y : list Ctx) (iters : list Z) :
  Forall (fun it => 0 <= it /\ (it + 1) * G <= len X) iters -> 0 <= G ->
  forall a,
    let a' := fold_left (cache_batch Ctx Res Act model G X Y) iters a in
    len (acc_mlp_activations Res Act a')
    = len (acc_mlp_activations Res Act a) + len iters * G /\
    len (acc_residual_stream Res Act a')
    = len (acc_residual_stream Res Act a) + len iters * G.
Proof.
  intros Hit HG. induction Hit as [|it iters [H0 H1] _ IH]; intros a.
  - cbn. unfold len. cbn. lia.
  - cbn [fold_left]. cbv zeta in IH.
    destruct (IH (cache_batch Ctx Res Act model G X Y a it)) as [IH1 IH2].
    cbv zeta. rewrite IH1, IH2. clear IH IH1 IH2.
    unfold cache_batch.
    destruct (model (slice_fn G it X) (slice_fn G it Y))
      as [[[res acts] bl] bal] eqn:Hm.
    apply one_row_per_context in Hm as [Ha Hr].
    assert (Hx : len (slice_fn G it X) = G)
      by (unfold slice_fn; rewrite len_slice by nia; lia).
    assert (Hla : len acts = G) by (unfold len in *; lia).
    assert (Hlr : len res = G) by (unfold len in *; lia).
    cbn [acc_mlp_activations acc_residual_stream].
    rewrite !len_app, Hla, Hlr.
    replace (len (it :: iters)) with (1 + len iters)
      by (unfold len; cbn [length]; lia).
    lia.
Qed.

End CacheFacts.

(** With fewer evaluation contexts than one sub-batch, building the
    baseline cache stops with [ZeroDivisionError]; otherwise it returns a
    cache. *)
Theorem eval_cache_needs_one_full_sub_batch
  (Ctx Res Act : Type)
  (model : list Ctx -> list Ctx -> list Res * list Act * R * R)
  (G eval_contexts : Z) (X Y : list Ctx) :
  0 < G -> 0 <= eval_contexts ->
  (eval_contexts < G ->
   build_eval_cache Ctx Res Act model G eval_contexts X Y
   = Raise ZeroDivisionError) /\
  (G <= eval_contexts ->
   exists cache,
     build_eval_cache Ctx Res Act model G eval_contexts X Y = Ok cache).
Proof.
  intros HG Hc. split.
  - intros Hlt. now apply build_eval_cache_error.
  - intros Hge. unfold build_eval_cache, floordiv.
    destruct (Z.eqb_spec G 0) as [|_]; [lia|]. cbn [bind].
    destruct (Z.eqb_spec (eval_contexts / G) 0) as [H0|Hn0]; [|eauto].
    apply Z.div_small_iff in H0; lia.
Qed.

Lemma eval_cache_needs_one_full_sub_batch_witness :
  (1 < 2 ->
   build_eval_cache Z Z Z echo_model 2 1 [5] [6] = Raise ZeroDivisionError) /\
  (2 <= 1 ->
   exists cache, build_eval_cache Z Z Z echo_model 2 1 [5] [6] = Ok cache).
Proof.
  apply (eval_cache_needs_one_full_sub_batch Z Z Z echo_model 2 1 [5] [6]).
  - lia.
  - lia.
Defined.

(** When the model returns one row per context, the cache built from
    [eval_contexts] contexts stores
    [eval_contexts // gpt_batch_size * gpt_batch_size] activation rows and
    as many residual-stream rows: the contexts of an incomplete last
    sub-batch are not stored. *)
Theorem eval_cache_stores_whole_sub_batches
  (Ctx Res Act : Type)
  (model : list Ctx -> list Ctx -> list Res * list Act * R * R)
  (G eval_contexts : Z) (X Y : list Ctx) :
  (forall x y res acts bl bal,
      model x y = (res, acts, bl, bal) ->
      length acts = length x /\ length res = length x) ->
  0 < G -> G <= eval_contexts -> len X = eval_contexts ->
  exists cache,
    build_eval_cache Ctx Res Act model G eval_contexts X Y = Ok cache /\
    len (mlp_activations_storage Res Act cache) = eval_contexts / G * G /\
    len (residual_stream_storage Res Act cache) = eval_contexts / G * G.
Proof.
  intros Hrows HG Hge HX. unfold build_eval_cache, floordiv.
  destruct (Z.eqb_spec G 0) as [|_]; [lia|]. cbn [bind].
  assert (Hnb : 0 < eval_contexts / G) by (apply Z.div_str_pos; lia).
  assert (Hle : eval_contexts / G * G <= eval_contexts)
    by (rewrite Z.mul_comm; apply Z.mul_div_le; lia).
  destruct (Z.eqb_spec (eval_contexts / G) 0) as [H0|_]; [lia|].
  eexists. split; [reflexivity|].
  cbn [mlp_activations_storage residual_stream_storage].
  destruct (fold_cache_lengths Ctx Res Act model G Hrows X Y
              (range (eval_contexts / G))) with (a := mkAcc Res Act [] [] 0%R 0%R)
    as [H1 H2].
  - apply Forall_forall. intros it Hit. unfold range in Hit.
    apply in_map_iff in Hit as (k & <- & Hk). apply in_seq in Hk. nia.
  - lia.
  - cbv zeta in H1, H2. rewrite H1, H2.
    cbn [acc_mlp_activations acc_residual_stream].
    unfold len. rewrite length_range. cbn [length]. lia.
Qed.

Lemma echo_model_rows :
  forall (x y res acts : list Z) (bl bal : R),
    echo_model x y = (res, acts, bl, bal) ->
    length acts = length x /\ length res = length x.
Proof. unfold echo_model. intros x y res acts bl bal [= <- <- _ _]. auto. Qed.

Lemma eval_cache_stores_whole_sub_batches_witness :
  exists cache,
    build_eval_cache Z Z Z echo_model 2 5 [1; 2; 3; 4; 5] [2; 3; 4; 5; 6]
    = Ok cache /\
    len (mlp_activations_storage Z Z cache) = 5 / 2 * 2 /\
    len (residual_stream_storage Z Z cache) = 5 / 2 * 2.
Proof.
  apply (eval_cache_stores_whole_sub_batches Z Z Z echo_model 2 5
           [1; 2; 3; 4; 5] [2; 3; 4; 5; 6] echo_model_rows).
  - lia.
  - lia.
  - reflexivity.
Defined.

End CacheExtras.

(** ** The density report *)

Module DensityExtras.
Import Py PyFacts Eval EvalFacts Density.
Open Scope Z_scope.

Lemma filter_split_length {A : Type} (g : A -> bool) (l : list A) :
  (length (filter (fun x => negb (g x)) l) + length (filter g l))%nat
  = length l.
Proof.
  induction l as [|x l IH]; [reflexivity|].
  cbn [filter]. destruct (g x); cbn [negb length]; lia.
Qed.

Lemma nth_zadd_zero (j : nat) (u : list Z) :
  forall v, nth j u 0 = 0 -> nth j v 0 = 0 -> nth j (zadd u v) 0 = 0.
Proof.
  unfold zadd. revert j.
  induction u as [|a u IH]; intros j [|b v] Hu Hv; destruct j; cbn in *;
    try reflexivity; try lia.
  now apply IH.
Qed.





Section Report.
Variables (Act Code : Type) (sae_f : Act -> list Code)
          (nonzero : Code -> bool).
Variables (G n_features : Z).

(** Every code vector that line 282 selects is the code of an activation
    vector of the storage. *)
Lemma selected_codes_stored (storage : list (list Act)) (iter : Z)
      (sel : list Z) (acts : list (list (list Code))) :
  selected_feature_acts Code G (map (map sae_f) (slice_fn G iter storage)) sel
  = Ok acts ->
  Forall (fun code => exists ctx a,
              In ctx storage /\ In a ctx /\ code = sae_f a) (concat acts).
Proof.
  unfold selected_feature_acts. intros H. apply Forall_concat.
  revert H. apply mapM_Forall. intros i row Hrow.
  unfold take_tokens in Hrow. apply bind_ok in Hrow as (ctx' & Hctx & Hrow).
  apply index_In in Hctx. apply in_map_iff in Hctx as (ctx & <- & Hin).
  apply In_slice in Hin.
  revert Hrow. apply mapM_Forall. intros p code Hcode.
  apply index_In in Hcode. apply in_map_iff in Hcode as (a & <- & Ha).
  eauto.
Qed.

Lemma length_count_nonzero (t : list (list (list Code))) :
  Forall (fun code => length code = Z.to_nat n_features) (concat t) ->
  length (count_nonzero_dim01 Code nonzero n_features t)
  = Z.to_nat n_features.
Proof.
  unfold count_nonzero_dim01.
  induction 1 as [|code l Hc _ IH]; cbn [fold_right].
  - apply repeat_length.
  - rewrite length_zadd, length_map, IH. lia.
Qed.

Lemma nth_count_nonzero_zero (j : nat) (t : list (list (list Code))) :
  Forall (fun code => forall x, nth_error code j = Some x ->
                                nonzero x = false) (concat t) ->
  nth j (count_nonzero_dim01 Code nonzero n_features t) 0 = 0.
Proof.
  unfold count_nonzero_dim01.
  induction 1 as [|code l Hc _ IH]; cbn [fold_right].
  - destruct (Nat.lt_ge_cases j (Z.to_nat n_features)).
    + now apply nth_repeat_lt.
    + apply nth_overflow. now rewrite repeat_length.
  - apply nth_zadd_zero; [|exact IH]. clear IH.
    revert j Hc. induction code as [|x code IHc]; intros [|j] Hc; cbn;
      try reflexivity.
    + now rewrite (Hc x eq_refl).
    + apply IHc. intros y Hy. now apply Hc.
Qed.

Section OnePass.
Variables (storage : list (list Act)) (selected_tokens_loc : list (list Z)).

Lemma foldM_counts_inv (P : list Z -> Prop) (iters : list Z) :
  (forall counts iter counts',
      P counts ->
      count_batch Act Code sae_f nonzero G n_features storage
                  selected_tokens_loc counts iter = Ok counts' ->
      P counts') ->
  forall counts counts',
    P counts ->
    foldM (count_batch Act Code sae_f nonzero G n_features storage
                       selected_tokens_loc) iters counts = Ok counts' ->
    P counts'.
Proof.
  intros Hstep. induction iters as [|i iters IH]; cbn [foldM];
    intros counts counts' HP H.
  - inversion H; subst. exact HP.
  - apply bind_ok in H as (c1 & Hc1 & H).
    apply (IH c1 counts'); [|exact H].
    now apply (Hstep counts i c1).
Qed.

Lemma pass_inv (P : list Z -> Prop) (eval_contexts : Z) (counts : list Z) :
  P (repeat 0 (Z.to_nat n_features)) ->
  (forall counts iter counts',
      P counts ->
      count_batch Act Code sae_f nonzero G n_features storage
                  selected_tokens_loc counts iter = Ok counts' ->
      P counts') ->
  feature_activation_counts Act Code sae_f nonzero G n_features
    eval_contexts storage selected_tokens_loc = Ok counts ->
  P counts.
Proof.
  intros H0 Hstep H. unfold feature_activation_counts in H.
  apply bind_ok in H as (nb & _ & H).
  now apply (foldM_counts_inv P (range nb) Hstep _ counts H0).
Qed.

Lemma pass_length (eval_contexts : Z) (counts : list Z) :
  (forall a, length (sae_f a) = Z.to_nat n_features) ->
  feature_activation_counts Act Code sae_f nonzero G n_features
    eval_contexts storage selected_tokens_loc = Ok counts ->
  length counts = Z.to_nat n_features.
Proof.
  intros Hwidth Hpass.
  apply (pass_inv (fun c => length c = Z.to_nat n_features)
                  eval_contexts counts); [apply repeat_length| |exact Hpass].
  intros c iter c' Hc H. unfold count_batch in H.
  apply bind_ok in H as (sel & _ & H). apply bind_ok in H as (acts & Hacts & H).
  inversion H; subst c'.
  rewrite length_zadd, Hc, length_count_nonzero; [lia|].
  apply selected_codes_stored in Hacts. revert Hacts. apply Forall_impl.
  intros code (ctx & a & _ & _ & ->). apply Hwidth.
Qed.

Lemma pass_dead (j : nat) (eval_contexts : Z) (counts : list Z) :
  (forall ctx a x, In ctx storage -> In a ctx ->
                   nth_error (sae_f a) j = Some x -> nonzero x = false) ->
  feature_activation_counts Act Code sae_f nonzero G n_features
    eval_contexts storage selected_tokens_loc = Ok counts ->
  nth j counts 0 = 0.
Proof.
  intros Hquiet Hpass.
  apply (pass_inv (fun c => nth j c 0 = 0) eval_contexts counts);
    [| |exact Hpass].
  - destruct (Nat.lt_ge_cases j (Z.to_nat n_features)).
    + now apply nth_repeat_lt.
    + apply nth_overflow. now rewrite repeat_length.
  - intros c iter c' Hc H. unfold count_batch in H.
    apply bind_ok in H as (sel & _ & H).
    apply bind_ok in H as (acts & Hacts & H).
    inversion H; subst c'. apply nth_zadd_zero; [exact Hc|].
    apply nth_count_nonzero_zero.
    apply selected_codes_stored in Hacts. revert Hacts. apply Forall_impl.
    intros code (ctx & a & Hctx & Ha & ->) x Hx. eauto.
Qed.

End OnePass.
End Report.
End DensityExtras.

Module ReportExtras.
Import Py PyFacts Eval EvalFacts Density DensityExtras.
Open Scope Z_scope.

(** After a pass over a well-formed evaluation set, with an autoencoder of
    [n_features] features, there are [n_features] counters, and the
    features reported alive (line 310) together with those whose counter
    is zero are all [n_features] features. *)
Theorem alive_and_dead_features_partition
  (Act Code : Type) (sae_f : Act -> list Code) (nonzero : Code -> bool)
  (G n_features eval_contexts block_size eval_tokens : Z)
  (storage : list (list Act)) (selected_tokens_loc : list (list Z)) :
  0 < G -> 0 <= eval_contexts -> 0 <= n_features ->
  eval_contexts / G * G <= len storage ->
  Forall (fun ctx => len ctx = block_size) storage ->
  len selected_tokens_loc = eval_contexts ->
  Forall (Forall (fun p => 0 <= p < block_size)) selected_tokens_loc ->
  (forall a, len (sae_f a) = n_features) ->
  exists counts,
    feature_activation_counts Act Code sae_f nonzero G n_features
      eval_contexts storage selected_tokens_loc = Ok counts /\
    len counts = n_features /\
    num_alive_neurons (log_feature_activation_density counts eval_tokens)
    + len (dead_features counts) = n_features.
Proof.
  intros HG Hctx Hnf Hst Hwin Hlen Hpos Hwidth.
  destruct (feature_activation_counts_ok Act Code sae_f nonzero G n_features
              storage selected_tokens_loc eval_contexts block_size
              HG Hctx Hst Hwin Hlen Hpos) as [counts Hcounts].
  exists counts. split; [exact Hcounts|].
  assert (Hl : length counts = Z.to_nat n_features).
  { apply (pass_length Act Code sae_f nonzero G n_features storage
             selected_tokens_loc eval_contexts counts); [|exact Hcounts].
    intros a. specialize (Hwidth a). unfold len in Hwidth. lia. }
  split; [unfold len; lia|].
  unfold num_alive_neurons, log_feature_activation_density, feature_density,
    dead_features, len.
  rewrite !length_map.
  pose proof (filter_split_length (fun c => c =? 0) counts) as Hsplit.
  lia.
Qed.

Lemma alive_and_dead_features_partition_witness :
  exists counts,
    feature_activation_counts Z Z toy_codes toy_nonzero 2 1 2
      toy_storage toy_selected = Ok counts /\
    len counts = 1 /\
    num_alive_neurons (log_feature_activation_density counts 2)
    + len (dead_features counts) = 1.
Proof.
  apply (alive_and_dead_features_partition Z Z toy_codes toy_nonzero
           2 1 2 2 2 toy_storage toy_selected).
  - lia.
  - lia.
  - lia.
  - vm_compute. discriminate.
  - repeat constructor.
  - reflexivity.
  - repeat constructor; lia.
  - intros a. reflexivity.
Defined.



(** A feature whose code is zero on every activation vector of the
    storage ends a pass over a well-formed evaluation set with counter 0,
    so it is not among the features reported alive. *)
Theorem never_active_feature_is_dead
  (Act Code : Type) (sae_f : Act -> list Code) (nonzero : Code -> bool)
  (G n_features eval_contexts block_size : Z)
  (storage : list (list Act)) (selected_tokens_loc : list (list Z))
  (j : nat) :
  0 < G -> 0 <= eval_contexts ->
  eval_contexts / G * G <= len storage ->
  Forall (fun ctx => len ctx = block_size) storage ->
  len selected_tokens_loc = eval_contexts ->
  Forall (Forall (fun p => 0 <= p < block_size)) selected_tokens_loc ->
  (forall ctx a x, In ctx storage -> In a ctx ->
                   nth_error (sae_f a) j = Some x -> nonzero x = false) ->
  exists counts,
    feature_activation_counts Act Code sae_f nonzero G n_features
      eval_contexts storage selected_tokens_loc = Ok counts /\
    nth j counts 0 = 0.
Proof.
  intros HG Hctx Hst Hwin Hlen Hpos Hquiet.
  destruct (feature_activation_counts_ok Act Code sae_f nonzero G n_features
              storage selected_tokens_loc eval_contexts block_size
              HG Hctx Hst Hwin Hlen Hpos) as [counts Hcounts].
  exists counts. split; [exact Hcounts|].
  now apply (pass_dead Act Code sae_f nonzero G n_features storage
               selected_tokens_loc j eval_contexts counts).
Qed.

Lemma never_active_feature_is_dead_witness :
  exists counts,
    feature_activation_counts Z Z (fun a => [1; a]) toy_nonzero 2 2 2
      [[0; 0]; [0; 0]] toy_selected = Ok counts /\
    nth 1 counts 0 = 0.
Proof.
  apply (never_active_feature_is_dead Z Z (fun a => [1; a]) toy_nonzero
           2 2 2 2 [[0; 0]; [0; 0]] toy_selected 1).
  - lia.
  - lia.
  - vm_compute. discriminate.
  - repeat constructor.
  - reflexivity.
  - repeat constructor; lia.
  - intros ctx a x Hctx Ha Hx. cbn in Hx. inversion Hx; subst x.
    cbn in Hctx.
    assert (a = 0).
    { destruct Hctx as [<-|[<-|[]]]; cbn in Ha;
        destruct Ha as [<-|[<-|[]]]; reflexivity. }
    subst a. reflexivity.
Defined.

End ReportExtras.

(** ** Further properties of the projection and the normalisation *)

Module ProjectionExtras.
Import Torch TorchFacts SAE ProjectionFacts.
Open Scope R_scope.

Lemma rsum_sq_projected (s : R) (g : vec) :
  forall u,
    length g = length u ->
    rsum (map (fun x => x * x) (map2 (fun a b => a - s * b) g u))
    = rsum (map (fun x => x * x) g) - 2 * s * rsum (map2 Rmult g u)
      + s * s * rsum (map (fun x => x * x) u).
Proof.
  induction g as [|a g IH]; intros [|b u] Hlen; cbn in Hlen; try lia.
  - cbn. ring.
  - cbn [map2 map]. rewrite !rsum_cons, IH by lia. ring.
Qed.

Lemma rsum_map2_div (D : R) (g : vec) :
  forall w,
    rsum (map2 (fun a b => a * (b / D)) g w) = rsum (map2 Rmult g w) / D.
Proof.
  induction g as [|a g IH]; intros [|b w]; cbn [map2];
    try (cbn; unfold Rdiv; ring).
  rewrite !rsum_cons, IH. unfold Rdiv. ring.
Qed.

Lemma map2_minus_zero (g : vec) :
  forall u, (length g <= length u)%nat ->
            map2 (fun a b => a - 0 * b) g u = g.
Proof.
  induction g as [|a g IH]; intros [|b u] Hlen; cbn in *; try lia;
    try reflexivity.
  rewrite IH by lia. f_equal. ring.
Qed.

(** A normalised column has squared norm at most 1, whatever the column. *)
Lemma normalized_column_sq_le_1 (m j : nat) (W : mat) :
  rows_of m W -> (j < m)%nat ->
  rsum (map (fun x => x * x) (col j (normalize_dim0 W))) <= 1.
Proof.
  intros HW Hj. rewrite (col_normalize_dim0 m) by assumption.
  rewrite (nth_vector_norm_dim0 m) by assumption.
  set (w := col j W). set (d := sqrt (rsum (map (fun x => x * x) w))).
  pose proof normalize_eps_pos as He.
  pose proof (rsum_squares_nonneg w) as HS.
  assert (Hd0 : 0 <= d) by apply sqrt_pos.
  assert (Hdd : d * d = rsum (map (fun x => x * x) w))
    by (apply sqrt_sqrt; exact HS).
  set (D := Rmax d normalize_eps).
  assert (HD : 0 < D) by (unfold D; pose proof (Rmax_r d normalize_eps); lra).
  assert (HdD : d <= D) by (unfold D; apply Rmax_l).
  rewrite map_map.
  rewrite (map_ext _ (fun x => (x * x) * / (D * D)))
    by (intros x; field; lra).
  rewrite (rsum_scal (/ (D * D)) (fun x => x * x)), <- Hdd.
  apply (Rmult_le_reg_r (D * D)); [nra|].
  rewrite Rmult_assoc, Rinv_l by nra. nra.
Qed.

Lemma length_col (j : nat) (M : mat) : length (col j M) = length M.
Proof. unfold col. apply length_map. Qed.

(** The projection never makes a gradient column longer. *)
Theorem projection_never_lengthens_a_column
  (m j : nat) (grad weight : mat) :
  rows_of m grad -> rows_of m weight -> length grad = length weight ->
  (j < m)%nat ->
  nth j (vector_norm_dim0 (remove_parallel_component grad weight)) 0
  <= nth j (vector_norm_dim0 grad) 0.
Proof.
  intros Hg Hw Hlen Hj.
  destruct grad as [|g0 grad'] eqn:Eg.
  { destruct weight; [|discriminate]. cbn. lra. }
  rewrite <- Eg in *.
  assert (Hgn : grad <> []) by (subst; discriminate).
  assert (Hwn : weight <> []).
  { intros ->. subst grad. discriminate. }
  rewrite !(nth_vector_norm_dim0 m)
    by (auto using rows_of_remove_parallel).
  rewrite (col_remove_parallel m) by assumption.
  set (u := col j (normalize_dim0 weight)).
  set (s := rsum (map2 Rmult (col j grad) u)).
  rewrite rsum_sq_projected
    by (unfold u; rewrite !length_col, length_normalize_dim0; exact Hlen).
  fold s.
  pose proof (normalized_column_sq_le_1 m j weight Hw Hj) as Hu.
  fold u in Hu.
  pose proof (rsum_squares_nonneg u) as Hu0.
  apply sqrt_le_1_alt. nra.
Qed.

Lemma projection_never_lengthens_a_column_witness :
  nth 0 (vector_norm_dim0 (remove_parallel_component [[1]] tiny_weight)) 0
  <= nth 0 (vector_norm_dim0 [[1]]) 0.
Proof.
  apply (projection_never_lengthens_a_column 1 0 [[1]] tiny_weight).
  - repeat constructor.
  - repeat constructor.
  - reflexivity.
  - apply Nat.lt_0_1.
Defined.

(** A gradient column whose product with the weight column is zero, for
    instance under a zero weight column, passes through the projection
    unchanged. *)
Theorem projection_keeps_orthogonal_gradient
  (m j : nat) (grad weight : mat) :
  rows_of m grad -> rows_of m weight -> length grad = length weight ->
  (j < m)%nat ->
  dot (col j grad) (col j weight) = 0 ->
  col j (remove_parallel_component grad weight) = col j grad.
Proof.
  intros Hg Hw Hlen Hj Hdot.
  destruct grad as [|g0 grad'] eqn:Eg.
  { destruct weight; [|discriminate]. reflexivity. }
  rewrite <- Eg in *.
  assert (Hgn : grad <> []) by (subst; discriminate).
  assert (Hwn : weight <> []).
  { intros ->. subst grad. discriminate. }
  rewrite (col_remove_parallel m) by assumption.
  rewrite (col_normalize_dim0 m) by assumption.
  set (D := Rmax (nth j (vector_norm_dim0 weight) 0) normalize_eps).
  assert (Hs : rsum (map2 Rmult (col j grad)
                          (map (fun x => x / D) (col j weight))) = 0).
  { rewrite map2_map_r, rsum_map2_div.
    unfold dot in Hdot. rewrite Hdot. unfold Rdiv. ring. }
  rewrite Hs. apply map2_minus_zero.
  rewrite length_map, !length_col. lia.
Qed.

Lemma projection_keeps_orthogonal_gradient_witness :
  col 0 (remove_parallel_component [[1; 5]; [2; 6]] [[2; 0]; [-1; 0]])
  = col 0 [[1; 5]; [2; 6]].
Proof.
  apply (projection_keeps_orthogonal_gradient 2 0 [[1; 5]; [2; 6]]
           [[2; 0]; [-1; 0]]).
  - repeat constructor.
  - repeat constructor.
  - reflexivity.
  - apply Nat.lt_0_2.
  - unfold dot. cbn. ring.
Defined.

(** Projecting an already projected gradient changes nothing in a column
    whose weight column has norm at least [eps]. *)
Theorem projection_is_idempotent
  (m j : nat) (grad weight : mat) :
  rows_of m grad -> rows_of m weight -> length grad = length weight ->
  (j < m)%nat ->
  normalize_eps <= nth j (vector_norm_dim0 weight) 0 ->
  col j (remove_parallel_component
           (remove_parallel_component grad weight) weight)
  = col j (remove_parallel_component grad weight).
Proof.
  intros Hg Hw Hlen Hj Hnorm.
  destruct grad as [|g0 grad'] eqn:Eg.
  { destruct weight; [|discriminate]. reflexivity. }
  rewrite <- Eg in *.
  assert (Hgn : grad <> []) by (subst; discriminate).
  assert (Hwn : weight <> []).
  { intros ->. subst grad. discriminate. }
  set (out := remove_parallel_component grad weight).
  assert (Hout : rows_of m out) by (now apply rows_of_remove_parallel).
  assert (Hlo : length out = length weight).
  { unfold out, remove_parallel_component, bcast.
    rewrite length_ewise, length_map, length_normalize_dim0. lia. }
  assert (Hon : out <> []).
  { intros Hnil. rewrite Hnil in Hlo. destruct weight; [congruence|].
    discriminate. }
  assert (Hzero : rsum (map2 Rmult (col j out)
                              (col j (normalize_dim0 weight))) = 0).
  { rewrite <- (col_ewise Rmult m)
      by (auto using rows_of_normalize_dim0).
    rewrite <- (nth_sum_dim0 m)
      by (auto using rows_of_ewise, rows_of_normalize_dim0).
    unfold out. rewrite (projected_column_dot m) by assumption.
    rewrite (col_normalize_dim0 m) by assumption.
    rewrite (nth_vector_norm_dim0 m) in * by assumption.
    rewrite unit_after_division by assumption. ring. }
  rewrite (col_remove_parallel m) by assumption.
  rewrite Hzero. apply map2_minus_zero.
  rewrite !length_col, length_normalize_dim0. lia.
Qed.

Lemma projection_is_idempotent_witness :
  col 0 (remove_parallel_component
           (remove_parallel_component [[3]] [[2]]) [[2]])
  = col 0 (remove_parallel_component [[3]] [[2]]).
Proof.
  apply (projection_is_idempotent 1 0 [[3]] [[2]]).
  - repeat constructor.
  - repeat constructor.
  - reflexivity.
  - apply Nat.lt_0_1.
  - rewrite (nth_vector_norm_dim0 1) by (repeat constructor).
    cbn. rewrite Rplus_0_r, sqrt_square by lra.
    pose proof NormalizeFacts.eps_le_1. lra.
Defined.

(** Normalising rescales every decoder column by a positive factor and
    leaves it with L2 norm at most 1, at initialisation and at every step
    with [step % 1000 == 0], whatever the weights were. *)
Theorem normalize_rescales_columns_into_unit_ball
  (m j : nat) (step : Z) (self : AutoEncoder) :
  rows_of m (weight (dec self)) -> (j < m)%nat ->
  (step mod 1000 = 0)%Z ->
  let W := weight (dec self) in
  let W' := weight (dec (periodic_normalize step self)) in
  W' = weight (dec (init_normalize self)) /\
  nth j (vector_norm_dim0 W') 0 <= 1 /\
  exists t, 0 < t /\ col j W' = map (fun x => x / t) (col j W).
Proof.
  intros HW Hj Hstep W W'.
  assert (HW' : W' = normalize_dim0 W).
  { unfold W', periodic_normalize. now rewrite Hstep. }
  split; [now rewrite HW'|]. rewrite HW'. split.
  - rewrite (nth_vector_norm_dim0 m)
      by (auto using rows_of_normalize_dim0).
    rewrite <- sqrt_1. apply sqrt_le_1_alt.
    now apply (normalized_column_sq_le_1 m).
  - exists (Rmax (nth j (vector_norm_dim0 W) 0) normalize_eps). split.
    + pose proof normalize_eps_pos.
      pose proof (Rmax_r (nth j (vector_norm_dim0 W) 0) normalize_eps). lra.
    + now apply (col_normalize_dim0 m).
Qed.

Lemma normalize_rescales_columns_into_unit_ball_witness :
  let W := weight (dec dead_column) in
  let W' := weight (dec (periodic_normalize 3000 dead_column)) in
  W' = weight (dec (init_normalize dead_column)) /\
  nth 0 (vector_norm_dim0 W') 0 <= 1 /\
  exists t, 0 < t /\ col 0 W' = map (fun x => x / t) (col 0 W).
Proof.
  apply (normalize_rescales_columns_into_unit_ball 1 0 3000 dead_column).
  - repeat constructor.
  - apply Nat.lt_0_1.
  - reflexivity.
Defined.

End ProjectionExtras.

(** ** Further properties of the forward pass and the score *)

Module ForwardExtras.
Import Torch TorchFacts SAE ForwardFacts.
Open Scope R_scope.

Lemma rsum_map2_nonneg {A B : Type} (g : A -> B -> R) :
  (forall a b, 0 <= g a b) -> forall u v, 0 <= rsum (map2 g u v).
Proof.
  intros Hg u. induction u as [|a u IH]; intros [|b v]; cbn [map2];
    try (cbn; lra).
  rewrite rsum_cons. specialize (Hg a b). specialize (IH v). lra.
Qed.

Lemma sq_sum_nonneg (X Y : mat) :
  0 <= tsum (ewise (fun a b => (a - b) * (a - b)) X Y).
Proof.
  rewrite tsum_ewise. apply rsum_map2_nonneg. intros r a.
  apply rsum_map2_nonneg. intros x y. apply (Rle_0_sqr (x - y)).
Qed.

Lemma Rinv_INR_nonneg (k : nat) : 0 <= / INR k.
Proof.
  destruct k as [|k]; [cbn; rewrite Rinv_0; lra|].
  left. apply Rinv_0_lt_compat. apply lt_0_INR. lia.
Qed.

Lemma map_abs_nonneg (c : vec) :
  Forall (fun x => 0 <= x) c -> map Rabs c = c.
Proof.
  induction 1 as [|x c Hx _ IH]; [reflexivity|].
  cbn. now rewrite IH, Rabs_pos_eq.
Qed.

(** Both loss terms are non-negative, the L1 term is the plain sum of the
    codes (they are never negative), and the combined loss is non-negative
    when [lam] is. *)
Theorem losses_are_nonnegative (self : AutoEncoder) (acts : mat) :
  0 <= lam self ->
  let o := forward self acts in
  0 <= mseloss o /\ 0 <= l1loss o /\ l1loss o = tsum (f o) /\ 0 <= loss o.
Proof.
  intros Hlam o.
  assert (Hm : 0 <= mseloss o).
  { unfold o. cbn [forward mseloss]. unfold mse_loss, Rdiv.
    apply Rmult_le_pos; [apply sq_sum_nonneg|apply Rinv_INR_nonneg]. }
  assert (Hl : l1loss o = tsum (f o)).
  { unfold o. cbn [forward l1loss]. rewrite l1_loss_zeros.
    unfold spec_l1, tsum. f_equal.
    pose proof (codes_nonneg self acts) as Hc. cbn [forward f] in Hc.
    apply map_ext_in. intros c Hin. rewrite Forall_forall in Hc.
    now rewrite map_abs_nonneg by (apply Hc; exact Hin). }
  assert (Hl0 : 0 <= l1loss o).
  { unfold o. cbn [forward l1loss]. rewrite l1_loss_zeros. unfold spec_l1.
    apply rsum_nonneg. rewrite Forall_map. apply Forall_forall. intros c _.
    apply rsum_nonneg. rewrite Forall_map. apply Forall_forall. intros x _.
    apply Rabs_pos. }
  repeat split; try assumption.
  unfold o in *. cbn [forward loss mseloss l1loss] in *. nra.
Qed.

Lemma losses_are_nonnegative_witness :
  let o := forward bias_only [[5]] in
  0 <= mseloss o /\ 0 <= l1loss o /\ l1loss o = tsum (f o) /\ 0 <= loss o.
Proof.
  apply (losses_are_nonnegative bias_only [[5]]). cbn. lra.
Defined.

Lemma map2_app {A B C : Type} (g : A -> B -> C) (u : list A) :
  forall v u' v', length u = length v ->
                  map2 g (u ++ u') (v ++ v') = map2 g u v ++ map2 g u' v'.
Proof.
  induction u as [|a u IH]; intros [|b v] u' v' Hlen; cbn in *; try lia.
  - reflexivity.
  - now rewrite IH by lia.
Qed.

Lemma tsum_app (X Y : mat) : tsum (X ++ Y) = tsum X + tsum Y.
Proof. unfold tsum. rewrite map_app. apply rsum_app. Qed.

(** [b] times the mean over a [(b, n)] batch is the sum of the squared
    differences divided by [n]. *)
Lemma mse_times_rows (b n : nat) (recon acts : mat) :
  has_shape b n recon -> has_shape b n acts ->
  INR b * mse_loss recon acts
  = tsum (ewise (fun x y => (x - y) * (x - y)) recon acts) / INR n.
Proof.
  intros Hr Ha. unfold mse_loss. rewrite (numel_shape b n) by assumption.
  destruct b as [|b'].
  - destruct Hr as [Hr _]. apply length_zero_iff_nil in Hr. subst recon.
    cbn. unfold tsum, Rdiv. cbn. ring.
  - destruct n as [|n'].
    + rewrite Nat.mul_0_r. cbn [INR]. unfold Rdiv. rewrite Rinv_0. ring.
    + rewrite mult_INR. field.
      split; apply not_0_INR; lia.
Qed.

(** The forward pass works row by row: the codes and the reconstruction of
    two batches put together are those of each batch put together, and the
    MSE of the whole is the mean of the two MSEs weighted by the batch
    sizes. *)
Theorem forward_of_concatenated_batches
  (n m b1 b2 : nat) (self : AutoEncoder) (acts1 acts2 : mat) :
  well_shaped n m self -> has_shape b1 n acts1 -> has_shape b2 n acts2 ->
  let o := forward self (acts1 ++ acts2) in
  let o1 := forward self acts1 in
  let o2 := forward self acts2 in
  f o = f o1 ++ f o2 /\
  reconst_acts o = reconst_acts o1 ++ reconst_acts o2 /\
  INR (b1 + b2) * mseloss o = INR b1 * mseloss o1 + INR b2 * mseloss o2.
Proof.
  intros Hself H1 H2 o o1 o2.
  assert (Hf : f o = f o1 ++ f o2)
    by (unfold o, o1, o2; cbn [forward f]; unfold bcast;
        now rewrite !map_app).
  assert (Hr : reconst_acts o = reconst_acts o1 ++ reconst_acts o2)
    by (unfold o, o1, o2; cbn [forward reconst_acts]; unfold bcast;
        now rewrite !map_app).
  split; [exact Hf|]. split; [exact Hr|].
  assert (Hs1 : has_shape b1 n (reconst_acts o1))
    by (apply (reconst_shape n m); [exact Hself|apply H1]).
  assert (Hs2 : has_shape b2 n (reconst_acts o2))
    by (apply (reconst_shape n m); [exact Hself|apply H2]).
  assert (H12 : has_shape (b1 + b2) n (acts1 ++ acts2)).
  { destruct H1 as [Hl1 Hr1], H2 as [Hl2 Hr2]. split.
    - rewrite length_app. lia.
    - unfold rows_of in *. apply Forall_app. auto. }
  assert (Hs : has_shape (b1 + b2) n (reconst_acts o))
    by (apply (reconst_shape n m); [exact Hself|apply H12]).
  change (mseloss o) with (mse_loss (reconst_acts o) (acts1 ++ acts2)).
  change (mseloss o1) with (mse_loss (reconst_acts o1) acts1).
  change (mseloss o2) with (mse_loss (reconst_acts o2) acts2).
  rewrite (mse_times_rows (b1 + b2) n), (mse_times_rows b1 n),
    (mse_times_rows b2 n) by assumption.
  rewrite Hr. unfold ewise.
  rewrite map2_app
    by (transitivity b1; [apply Hs1|symmetry; apply H1]).
  rewrite tsum_app. unfold Rdiv. ring.
Qed.

Lemma forward_of_concatenated_batches_witness :
  let o := forward bias_only ([[5]] ++ [[7]; [8]]) in
  let o1 := forward bias_only [[5]] in
  let o2 := forward bias_only [[7]; [8]] in
  f o = f o1 ++ f o2 /\
  reconst_acts o = reconst_acts o1 ++ reconst_acts o2 /\
  INR (1 + 2) * mseloss o = INR 1 * mseloss o1 + INR 2 * mseloss o2.
Proof.
  apply (forward_of_concatenated_batches 1 1 1 2 bias_only [[5]] [[7]; [8]]).
  - exact bias_only_well_shaped.
  - split; repeat constructor.
  - split; repeat constructor.
Defined.

Lemma sq_diff_zero_vec (r : vec) :
  forall a, length r = length a ->
            rsum (map2 (fun x y => (x - y) * (x - y)) r a) = 0 -> r = a.
Proof.
  induction r as [|x r IH]; intros [|y a] Hlen Hs; cbn in Hlen; try lia.
  - reflexivity.
  - cbn [map2] in Hs. rewrite rsum_cons in Hs.
    pose proof (rsum_map2_nonneg (fun x y : R => (x - y) * (x - y))
                  (fun x y => Rle_0_sqr (x - y)) r a) as Hn.
    pose proof (Rle_0_sqr (x - y)) as Hsq. unfold Rsqr in Hsq.
    assert (Hxy : (x - y) * (x - y) = 0) by lra.
    f_equal; [apply Rmult_integral in Hxy; lra|]. apply IH; [lia|lra].
Qed.

Lemma sq_diff_zero_mat (n : nat) (X : mat) :
  forall Y, length X = length Y -> rows_of n X -> rows_of n Y ->
            tsum (ewise (fun x y => (x - y) * (x - y)) X Y) = 0 -> X = Y.
Proof.
  induction X as [|r X IH]; intros [|a Y] Hlen HX HY Hs; cbn in Hlen;
    try lia.
  - reflexivity.
  - inversion HX; inversion HY; subst.
    unfold tsum, ewise in Hs. cbn [map2 map] in Hs. rewrite rsum_cons in Hs.
    pose proof (sq_sum_nonneg X Y) as Hrest.
    unfold tsum, ewise in Hrest.
    pose proof (rsum_map2_nonneg (fun x y : R => (x - y) * (x - y))
                  (fun x y => Rle_0_sqr (x - y)) r a) as Hrow.
    f_equal.
    + apply sq_diff_zero_vec; [congruence|lra].
    + apply IH; [lia|assumption|assumption|unfold tsum, ewise; lra].
Qed.

(** On a non-empty batch the MSE is zero exactly when the reconstruction
    is the batch itself. *)
Theorem zero_mse_means_exact_reconstruction
  (n m b : nat) (self : AutoEncoder) (acts : mat) :
  well_shaped n m self -> has_shape b n acts ->
  (0 < b)%nat -> (0 < n)%nat ->
  (mseloss (forward self acts) = 0
   <-> reconst_acts (forward self acts) = acts).
Proof.
  intros Hself Hacts Hb Hn.
  assert (Hs : has_shape b n (reconst_acts (forward self acts)))
    by (apply (reconst_shape n m); [exact Hself|apply Hacts]).
  change (mseloss (forward self acts))
    with (mse_loss (reconst_acts (forward self acts)) acts).
  set (recon := reconst_acts (forward self acts)) in *.
  assert (Hb' : 0 < INR b) by (apply lt_0_INR; exact Hb).
  assert (Hn' : 0 < INR n) by (apply lt_0_INR; exact Hn).
  pose proof (mse_times_rows b n recon acts Hs Hacts) as Hmse.
  split.
  - intros H0. rewrite H0, Rmult_0_r in Hmse.
    apply (sq_diff_zero_mat n).
    + transitivity b; [apply Hs|symmetry; apply Hacts].
    + apply Hs.
    + apply Hacts.
    + unfold Rdiv in Hmse. symmetry in Hmse.
      apply Rmult_integral in Hmse as [Hz|Hz]; [exact Hz|].
      exfalso. revert Hz. apply Rinv_neq_0_compat. lra.
  - intros Heq. rewrite Heq in Hmse.
    assert (Hz : tsum (ewise (fun x y => (x - y) * (x - y)) acts acts) = 0).
    { rewrite tsum_ewise, map2_diag.
      rewrite (map_ext _ (fun _ => 0)).
      - clear. induction acts as [|r l IH]; [reflexivity|].
        cbn [map]. rewrite rsum_cons, IH. ring.
      - intros r. rewrite map2_diag.
        rewrite (map_ext _ (fun _ => 0)) by (intros; ring).
        clear. induction r as [|x r IH]; [reflexivity|].
        cbn [map]. rewrite rsum_cons, IH. ring. }
    rewrite Hz in Hmse. unfold Rdiv in Hmse. rewrite Rmult_0_l in Hmse.
    rewrite Heq. apply Rmult_integral in Hmse as [Hz'|Hz']; [lra|exact Hz'].
Qed.

Lemma zero_mse_means_exact_reconstruction_witness :
  mseloss (forward dead_column [[0]]) = 0
  <-> reconst_acts (forward dead_column [[0]]) = [[0]].
Proof.
  apply (zero_mse_means_exact_reconstruction 1 1 1 dead_column [[0]]).
  - unfold well_shaped, rows_of. cbn. repeat split; repeat constructor.
  - split; repeat constructor.
  - apply Nat.lt_0_1.
  - apply Nat.lt_0_1.
Defined.

(** When ablating the MLP raises the loss, the score of line 298 grows
    with the reconstruction loss, and it lies between 0 and 1 exactly when
    the reconstruction loss lies between the full and the ablated loss. *)
Theorem nll_score_orders_reconstructions
  (full_loss mlp_ablated_loss r1 r2 : R) :
  full_loss < mlp_ablated_loss ->
  (r1 < r2 <->
   nll_score full_loss r1 mlp_ablated_loss
   < nll_score full_loss r2 mlp_ablated_loss) /\
  (0 <= nll_score full_loss r1 mlp_ablated_loss <= 1 <->
   full_loss <= r1 <= mlp_ablated_loss).
Proof.
  intros Hlt. unfold nll_score.
  set (d := mlp_ablated_loss - full_loss).
  assert (Hd : 0 < d) by (unfold d; lra).
  assert (Hinv : 0 < / d) by (apply Rinv_0_lt_compat; exact Hd).
  assert (Hs : forall r, (full_loss - r) / (full_loss - mlp_ablated_loss)
                         = (r - full_loss) * / d)
    by (intros r; unfold d; field; lra).
  rewrite !Hs. split; split.
  - intros H. apply Rmult_lt_compat_r; lra.
  - intros H. apply Rmult_lt_reg_r in H; lra.
  - intros [H0 H1]. split.
    + assert (0 <= (r1 - full_loss) * / d * d) by nra.
      rewrite Rmult_assoc, Rinv_l in H by lra. lra.
    + assert ((r1 - full_loss) * / d * d <= 1 * d) by nra.
      rewrite Rmult_assoc, Rinv_l in H by lra. unfold d in H. lra.
  - intros [H0 H1]. split.
    + apply Rmult_le_pos; lra.
    + apply (Rmult_le_reg_r d); [exact Hd|].
      rewrite Rmult_assoc, Rinv_l by lra. unfold d. lra.
Qed.

Lemma nll_score_orders_reconstructions_witness :
  (2 < 5 / 2 <-> nll_score 2 2 3 < nll_score 2 (5 / 2) 3) /\
  (0 <= nll_score 2 2 3 <= 1 <-> 2 <= 2 <= 3).
Proof.
  apply (nll_score_orders_reconstructions 2 3 2 (5 / 2)). lra.
Defined.

End ForwardExtras.
